(** * The Template message composer

    A shallow embedding of
    [app-template/packages/typescript/src/contracts/Template.message-composer.ts]:
    the class [TemplateMessageComposer], its constructor and its one
    operation [updateConfig], together with the library functions the
    operation calls: [JSON.stringify], [toUtf8] of @cosmjs/encoding,
    [AppExecuteMsgFactory.executeApp] of @abstract-money/abstract.js and
    [MsgExecuteContract.fromPartial] of cosmjs-types.

    JavaScript objects that the caller and the composer share (the composer
    instance, the array of coins given as funds) live in an explicit store;
    the operations are written in a state-and-exception monad over it.
    What an operation returns is a new object, and is given by value.

    The inverse functions [fromUtf8] and [JSON.parse] are there to state
    what the payload of an envelope decodes to. *)

From Stdlib Require Import Arith NArith ZArith List String Ascii Lia Bool.
Import ListNotations.
Local Open Scope N_scope.

(** ** JavaScript strings and byte arrays *)

(** A JavaScript string is a sequence of UTF-16 code units, a [Uint8Array]
    a sequence of octets. *)
Definition jsstring := list N.
Definition Uint8Array := list N.

(** A string literal of the source.  Every literal of the composer is ASCII,
    so each character is one code unit. *)
Definition lit (s : string) : jsstring :=
  map N_of_ascii (list_ascii_of_string s).

Definition is_high_surrogate (u : N) : bool := (0xD800 <=? u) && (u <=? 0xDBFF).
Definition is_low_surrogate (u : N) : bool := (0xDC00 <=? u) && (u <=? 0xDFFF).

(** The code point of a surrogate pair. *)
Definition pair_code_point (hi lo : N) : N :=
  0x10000 + (hi - 0xD800) * 0x400 + (lo - 0xDC00).

(** ** JSON values and [JSON.stringify] *)

(** The JSON values a message is made of.  An object is the list of its
    properties in enumeration order.  Numbers are left out: no message of
    this contract carries one. *)
Unset Elimination Schemes.
Inductive Json : Type :=
| JNull
| JBool (b : bool)
| JString (s : jsstring)
| JArray (elements : list Json)
| JObject (properties : list (jsstring * Json)).
Set Elimination Schemes.

Definition hex_digit (d : N) : N :=
  if d <? 10 then 0x30 + d else 0x61 + (d - 10).

(** [\uXXXX], in lower-case hexadecimal. *)
Definition unicode_escape (u : N) : jsstring :=
  [0x5C; 0x75;
   hex_digit (N.land (N.shiftr u 12) 0xF); hex_digit (N.land (N.shiftr u 8) 0xF);
   hex_digit (N.land (N.shiftr u 4) 0xF); hex_digit (N.land u 0xF)].

(** One code unit that is not part of a surrogate pair, as QuoteJSONString
    writes it. *)
Definition quote_unit (u : N) : jsstring :=
  if u =? 0x08 then [0x5C; 0x62]
  else if u =? 0x09 then [0x5C; 0x74]
  else if u =? 0x0A then [0x5C; 0x6E]
  else if u =? 0x0C then [0x5C; 0x66]
  else if u =? 0x0D then [0x5C; 0x72]
  else if u =? 0x22 then [0x5C; 0x22]
  else if u =? 0x5C then [0x5C; 0x5C]
  else if (u <? 0x20) || is_high_surrogate u || is_low_surrogate u
  then unicode_escape u
  else [u].

Fixpoint quote_units (s : jsstring) : jsstring :=
  match s with
  | [] => []
  | u :: rest =>
      if is_high_surrogate u then
        match rest with
        | v :: rest' =>
            if is_low_surrogate v then u :: v :: quote_units rest'
            else quote_unit u ++ quote_units rest
        | [] => quote_unit u
        end
      else quote_unit u ++ quote_units rest
  end.

(** QuoteJSONString of ECMAScript: the string between double quotes, with
    the control characters, the quote, the backslash and lone surrogates
    escaped. *)
Definition QuoteJSONString (s : jsstring) : jsstring :=
  0x22 :: quote_units s ++ [0x22].

Fixpoint join (sep : N) (parts : list jsstring) : jsstring :=
  match parts with
  | [] => []
  | [p] => p
  | p :: ps => p ++ sep :: join sep ps
  end.

(** [JSON.stringify(value)], without indentation. *)
Fixpoint JSON_stringify (value : Json) : jsstring :=
  match value with
  | JNull => lit "null"
  | JBool true => lit "true"
  | JBool false => lit "false"
  | JString s => QuoteJSONString s
  | JArray elements =>
      0x5B :: join 0x2C (map JSON_stringify elements) ++ [0x5D]
  | JObject properties =>
      0x7B :: join 0x2C
                (map (fun p => QuoteJSONString (fst p) ++ 0x3A :: JSON_stringify (snd p))
                     properties) ++ [0x7D]
  end.

(** ** [toUtf8] of @cosmjs/encoding *)

(** The UTF-8 octets of one code point. *)
Definition utf8_code_point (c : N) : Uint8Array :=
  if c <? 0x80 then [c]
  else if c <? 0x800 then
    [N.lor 0xC0 (N.shiftr c 6); N.lor 0x80 (N.land c 0x3F)]
  else if c <? 0x10000 then
    [N.lor 0xE0 (N.shiftr c 12); N.lor 0x80 (N.land (N.shiftr c 6) 0x3F);
     N.lor 0x80 (N.land c 0x3F)]
  else
    [N.lor 0xF0 (N.shiftr c 18); N.lor 0x80 (N.land (N.shiftr c 12) 0x3F);
     N.lor 0x80 (N.land (N.shiftr c 6) 0x3F); N.lor 0x80 (N.land c 0x3F)].

(** The scalar values of a string: a surrogate pair is one code point, a
    lone surrogate is replaced by U+FFFD (the conversion to a USVString
    that [TextEncoder.encode] applies to its argument). *)
Fixpoint scalar_values (s : jsstring) : list N :=
  match s with
  | [] => []
  | u :: rest =>
      if is_high_surrogate u then
        match rest with
        | v :: rest' =>
            if is_low_surrogate v
            then pair_code_point u v :: scalar_values rest'
            else 0xFFFD :: scalar_values rest
        | [] => [0xFFFD]
        end
      else if is_low_surrogate u then 0xFFFD :: scalar_values rest
      else u :: scalar_values rest
  end.

(** [toUtf8(str)] is [new TextEncoder().encode(str)]. *)
Definition toUtf8 (str : jsstring) : Uint8Array :=
  flat_map utf8_code_point (scalar_values str).

(** ** Decoding: [fromUtf8] and [JSON.parse] *)

Definition is_continuation (b : N) : bool := (0x80 <=? b) && (b <=? 0xBF).

Definition cons_to {A B} (a : A) (r : option (list A * B)) : option (list A * B) :=
  match r with
  | Some (l, b) => Some (a :: l, b)
  | None => None
  end.

(** The code points of a well-formed UTF-8 sequence; [None] where a fatal
    [TextDecoder] throws (an overlong form, a surrogate, a code point above
    U+10FFFF, a truncated sequence). *)
Fixpoint utf8_code_points (data : Uint8Array) : option (list N) :=
  match data with
  | [] => Some []
  | b0 :: rest =>
      if b0 <? 0x80 then option_map (cons b0) (utf8_code_points rest)
      else if (0xC2 <=? b0) && (b0 <=? 0xDF) then
        match rest with
        | b1 :: rest1 =>
            if is_continuation b1
            then option_map (cons (N.lor (N.shiftl (N.land b0 0x1F) 6) (N.land b1 0x3F)))
                            (utf8_code_points rest1)
            else None
        | _ => None
        end
      else if (0xE0 <=? b0) && (b0 <=? 0xEF) then
        match rest with
        | b1 :: b2 :: rest2 =>
            if ((if b0 =? 0xE0 then 0xA0 else 0x80) <=? b1)
               && (b1 <=? (if b0 =? 0xED then 0x9F else 0xBF))
               && is_continuation b2
            then option_map
                   (cons (N.lor (N.shiftl (N.land b0 0x0F) 12)
                                (N.lor (N.shiftl (N.land b1 0x3F) 6) (N.land b2 0x3F))))
                   (utf8_code_points rest2)
            else None
        | _ => None
        end
      else if (0xF0 <=? b0) && (b0 <=? 0xF4) then
        match rest with
        | b1 :: b2 :: b3 :: rest3 =>
            if ((if b0 =? 0xF0 then 0x90 else 0x80) <=? b1)
               && (b1 <=? (if b0 =? 0xF4 then 0x8F else 0xBF))
               && is_continuation b2 && is_continuation b3
            then option_map
                   (cons (N.lor (N.shiftl (N.land b0 0x07) 18)
                                (N.lor (N.shiftl (N.land b1 0x3F) 12)
                                       (N.lor (N.shiftl (N.land b2 0x3F) 6) (N.land b3 0x3F)))))
                   (utf8_code_points rest3)
            else None
        | _ => None
        end
      else None
  end.

(** The UTF-16 code units of a code point. *)
Definition utf16_units (c : N) : jsstring :=
  if c <? 0x10000 then [c]
  else [0xD800 + N.shiftr (c - 0x10000) 10; 0xDC00 + N.land (c - 0x10000) 0x3FF].

(** [fromUtf8(data)] of @cosmjs/encoding, the inverse of [toUtf8]:
    [new TextDecoder('utf-8', { fatal: true }).decode(data)], which also
    drops a leading byte order mark. *)
Definition fromUtf8 (data : Uint8Array) : option jsstring :=
  match utf8_code_points data with
  | Some (c :: cs) =>
      Some (flat_map utf16_units (if c =? 0xFEFF then cs else c :: cs))
  | Some [] => Some []
  | None => None
  end.

Definition is_whitespace (u : N) : bool :=
  (u =? 0x20) || (u =? 0x09) || (u =? 0x0A) || (u =? 0x0D).

Fixpoint skip_whitespace (s : jsstring) : jsstring :=
  match s with
  | u :: rest => if is_whitespace u then skip_whitespace rest else s
  | [] => []
  end.

Definition hex_value (u : N) : option N :=
  if (0x30 <=? u) && (u <=? 0x39) then Some (u - 0x30)
  else if (0x41 <=? u) && (u <=? 0x46) then Some (u - 0x41 + 10)
  else if (0x61 <=? u) && (u <=? 0x66) then Some (u - 0x61 + 10)
  else None.

Definition hex4 (a b c d : N) : option N :=
  match hex_value a, hex_value b, hex_value c, hex_value d with
  | Some a, Some b, Some c, Some d => Some (((a * 16 + b) * 16 + c) * 16 + d)
  | _, _, _, _ => None
  end.

(** The character a one-letter escape stands for. *)
Definition simple_escape (e : N) : option N :=
  if e =? 0x22 then Some 0x22
  else if e =? 0x5C then Some 0x5C
  else if e =? 0x2F then Some 0x2F
  else if e =? 0x62 then Some 0x08
  else if e =? 0x66 then Some 0x0C
  else if e =? 0x6E then Some 0x0A
  else if e =? 0x72 then Some 0x0D
  else if e =? 0x74 then Some 0x09
  else None.

(** A JSON string after its opening quote: its value and the text after the
    closing quote. *)
Fixpoint parse_string (s : jsstring) : option (jsstring * jsstring) :=
  match s with
  | [] => None
  | u :: rest =>
      if u =? 0x22 then Some ([], rest)
      else if u =? 0x5C then
        match rest with
        | e :: rest1 =>
            if e =? 0x75 then
              match rest1 with
              | a :: b :: c :: d :: rest2 =>
                  match hex4 a b c d with
                  | Some n => cons_to n (parse_string rest2)
                  | None => None
                  end
              | _ => None
              end
            else
              match simple_escape e with
              | Some n => cons_to n (parse_string rest1)
              | None => None
              end
        | [] => None
        end
      else if u <? 0x20 then None
      else cons_to u (parse_string rest)
  end.

Fixpoint strip_prefix (prefix s : jsstring) : option jsstring :=
  match prefix, s with
  | [], _ => Some s
  | p :: prefix', u :: s' => if p =? u then strip_prefix prefix' s' else None
  | _ :: _, [] => None
  end.

Fixpoint jsstring_eqb (s t : jsstring) : bool :=
  match s, t with
  | [], [] => true
  | u :: s', v :: t' => (u =? v) && jsstring_eqb s' t'
  | _, _ => false
  end.

(** Definition of the property [k] of an object under construction: a key
    met again keeps its place and takes the new value. *)
Fixpoint define_property (k : jsstring) (v : Json) (props : list (jsstring * Json))
  : list (jsstring * Json) :=
  match props with
  | [] => [(k, v)]
  | (k', v') :: rest =>
      if jsstring_eqb k k' then (k, v) :: rest
      else (k', v') :: define_property k v rest
  end.

(** A JSON value at the head of [s], and the text after it.  Each recursive
    call has consumed a character, so the length of the text bounds the
    fuel that is needed. *)
Fixpoint parse_value (fuel : nat) (s : jsstring) {struct fuel}
  : option (Json * jsstring) :=
  match fuel with
  | O => None
  | S fuel =>
      match skip_whitespace s with
      | [] => None
      | u :: rest =>
          if u =? 0x7B then
            match skip_whitespace rest with
            | v :: rest' =>
                if v =? 0x7D then Some (JObject [], rest')
                else parse_members fuel rest []
            | [] => None
            end
          else if u =? 0x5B then
            match skip_whitespace rest with
            | v :: rest' =>
                if v =? 0x5D then Some (JArray [], rest')
                else parse_elements fuel rest []
            | [] => None
            end
          else if u =? 0x22 then
            match parse_string rest with
            | Some (str, rest') => Some (JString str, rest')
            | None => None
            end
          else
            match strip_prefix (lit "null") (u :: rest),
                  strip_prefix (lit "true") (u :: rest),
                  strip_prefix (lit "false") (u :: rest) with
            | Some rest', _, _ => Some (JNull, rest')
            | _, Some rest', _ => Some (JBool true, rest')
            | _, _, Some rest' => Some (JBool false, rest')
            | None, None, None => None
            end
      end
  end

with parse_members (fuel : nat) (s : jsstring) (acc : list (jsstring * Json))
       {struct fuel} : option (Json * jsstring) :=
  match fuel with
  | O => None
  | S fuel =>
      match skip_whitespace s with
      | q :: rest =>
          if q =? 0x22 then
            match parse_string rest with
            | Some (k, rest1) =>
                match skip_whitespace rest1 with
                | c :: rest2 =>
                    if c =? 0x3A then
                      match parse_value fuel rest2 with
                      | Some (v, rest3) =>
                          match skip_whitespace rest3 with
                          | d :: rest4 =>
                              if d =? 0x2C
                              then parse_members fuel rest4 (define_property k v acc)
                              else if d =? 0x7D
                                   then Some (JObject (define_property k v acc), rest4)
                                   else None
                          | [] => None
                          end
                      | None => None
                      end
                    else None
                | [] => None
                end
            | None => None
            end
          else None
      | [] => None
      end
  end

with parse_elements (fuel : nat) (s : jsstring) (acc : list Json)
       {struct fuel} : option (Json * jsstring) :=
  match fuel with
  | O => None
  | S fuel =>
      match parse_value fuel s with
      | Some (v, rest) =>
          match skip_whitespace rest with
          | d :: rest' =>
              if d =? 0x2C then parse_elements fuel rest' (acc ++ [v])
              else if d =? 0x5D then Some (JArray (acc ++ [v]), rest')
              else None
          | [] => None
          end
      | None => None
      end
  end.

(** [JSON.parse(text)]; [None] where it throws a SyntaxError (and on
    numbers, which [Json] leaves out).  The properties of an object are in
    the order of the text. *)
Definition JSON_parse (text : jsstring) : option Json :=
  match parse_value (S (List.length text)) text with
  | Some (v, rest) =>
      match skip_whitespace rest with
      | [] => Some v
      | _ :: _ => None
      end
  | None => None
  end.

(** The JSON value a payload of octets decodes to. *)
Definition decode_payload (data : Uint8Array) : option Json :=
  match fromUtf8 data with
  | Some text => JSON_parse text
  | None => None
  end.

(** ** The store, and the monad of the operations *)

(** Coins, as @cosmjs/amino and cosmjs-types declare them: two strings. *)
Module Coin.

Record t : Type := make { denom : jsstring; amount : jsstring }.

(** [DeepPartial<Coin>]: every field may be [undefined] ([None]). *)
Record partial : Type := make_partial
  { p_denom : option jsstring; p_amount : option jsstring }.

(** A coin where a partial one is expected. *)
Definition to_partial (c : t) : partial :=
  {| p_denom := Some (denom c); p_amount := Some (amount c) |}.

(** [Coin.fromPartial(object)]: a field that is [undefined] becomes the
    empty string. *)
Definition fromPartial (object : partial) : t :=
  {| denom := match p_denom object with Some d => d | None => [] end;
     amount := match p_amount object with Some a => a | None => [] end |}.

End Coin.

Definition loc := nat.

(** A function value held by a composer: the arrow function [updateConfig]
    of the class body, which closes over its instance, or a function made by
    [Function.prototype.bind]. *)
Inductive closure : Type :=
| Arrow (this : loc)
| Bound (target : closure) (thisArg : loc).

(** An instance of the class [TemplateMessageComposer]: its own properties,
    those of the interface [TemplateMessage].  A property not yet assigned
    reads [undefined] ([None]). *)
Record TemplateMessageComposer : Type := make_instance
  { sender : option jsstring;
    contractAddress : option jsstring;
    updateConfig_property : option closure }.

Inductive object : Type :=
| Instance (i : TemplateMessageComposer)
| CoinArray (coins : list Coin.t).

(** The store: the object at location [l] is the [l]-th element. *)
Definition heap := list object.

(** Who threw: the composer's own code, the code calling into it, or a
    library the composer calls. *)
Inductive thrower : Type := Composer | Caller | Library.

Inductive exn : Type := TypeError (by_whom : thrower).

(** How a computation ends: with a value or with an exception, and in
    either case with the store it leaves behind. *)
Inductive outcome (A : Type) : Type :=
| Return (a : A) (h : heap)
| Throw (e : exn) (h : heap).
Arguments Return {A} a h.
Arguments Throw {A} e h.

Definition store_after {A} (o : outcome A) : heap :=
  match o with
  | Return _ h => h
  | Throw _ h => h
  end.

Definition M (A : Type) : Type := heap -> outcome A.

Definition ret {A} (a : A) : M A := fun h => Return a h.

Definition bind {A B} (m : M A) (k : A -> M B) : M B :=
  fun h => match m h with
           | Return a h' => k a h'
           | Throw e h' => Throw e h'
           end.

Definition throw {A} (e : exn) : M A := fun h => Throw e h.

Declare Scope js_scope.
Delimit Scope js_scope with js.
Notation "x <- m ;; k" := (bind m (fun x => k))
  (at level 61, m at next level, right associativity) : js_scope.
Notation "m ;; k" := (bind m (fun _ => k))
  (at level 61, right associativity) : js_scope.
Local Open Scope js_scope.

(** Allocation of a new object, at the end of the store. *)
Definition alloc (o : object) : M loc :=
  fun h => Return (List.length h) (h ++ [o]).

Fixpoint heap_set (h : heap) (l : loc) (o : object) : heap :=
  match h, l with
  | [], _ => []
  | _ :: h', O => o :: h'
  | x :: h', S l' => x :: heap_set h' l' o
  end.

(** Reading a property of the object at [l]: [undefined] when the object has
    no such property. *)
Definition get_property {A} (proj : TemplateMessageComposer -> option A) (l : loc) : M (option A) :=
  fun h => Return (match nth_error h l with
                   | Some (Instance i) => proj i
                   | _ => None
                   end) h.

(** Assignment to a property of the instance at [l].  The constructor
    assigns to the object it has just allocated, and nothing else does. *)
Definition set_property (upd : TemplateMessageComposer -> TemplateMessageComposer) (l : loc) : M unit :=
  fun h => match nth_error h l with
           | Some (Instance i) => Return tt (heap_set h l (Instance (upd i)))
           | _ => Return tt h
           end.

(** ** [MsgExecuteContract] of cosmjs-types *)

Module MsgExecuteContract.

(** The message: [sender: string; contract: string; msg: Uint8Array;
    funds: Coin[]]. *)
Record t : Type := make
  { sender : jsstring; contract : jsstring; msg : Uint8Array; funds : list Coin.t }.

(** [DeepPartial<MsgExecuteContract>], the argument of [fromPartial]: every
    field may be [undefined]; the funds are a reference to the caller's
    array. *)
Record DeepPartial : Type := make_DeepPartial
  { d_sender : option jsstring;
    d_contract : option jsstring;
    d_msg : option Uint8Array;
    d_funds : option loc }.

(** [Partial<MsgExecuteContract>], the declared type of the [value] of a
    [MsgExecuteContractEncodeObject]. *)
Record Partial : Type := make_Partial
  { p_sender : option jsstring;
    p_contract : option jsstring;
    p_msg : option Uint8Array;
    p_funds : option (list Coin.t) }.

(** A message where a partial one is expected: every field is present. *)
Definition to_Partial (m : t) : Partial :=
  {| p_sender := Some (sender m); p_contract := Some (contract m);
     p_msg := Some (msg m); p_funds := Some (funds m) |}.

(** [object.funds.map(...)] reads the array [object.funds] refers to; what is
    not an array has no [map], and the call throws inside the library. *)
Definition read_array (array : loc) : M (list Coin.t) :=
  fun h => match nth_error h array with
           | Some (CoinArray coins) => Return coins h
           | _ => Throw (TypeError Library) h
           end.

(** [MsgExecuteContract.fromPartial(object)], as cosmjs-types defines it
    (the package is a dependency of the composer, outside the repository).
    It makes a complete message of a partial one: a field that is
    [undefined] takes its default, the empty string for [sender] and
    [contract], the empty byte array for [msg], and
<<
    message.funds = object.funds?.map((e) => Coin.fromPartial(e)) || [];
>>
    so that absent funds become the empty array.  The message is a new
    object, and its funds are a new array of new coins. *)
Definition fromPartial (object : DeepPartial) : M t :=
  funds <- match d_funds object with
           | Some array =>
               coins <- read_array array ;;
               ret (map (fun e => Coin.fromPartial (Coin.to_partial e)) coins)
           | None => ret []
           end ;;
  ret {| sender := match d_sender object with Some s => s | None => [] end;
         contract := match d_contract object with Some c => c | None => [] end;
         msg := match d_msg object with Some m => m | None => [] end;
         funds := funds |}.

End MsgExecuteContract.

(** [MsgExecuteContractEncodeObject]: the envelope. *)
Record MsgExecuteContractEncodeObject : Type := make_EncodeObject
  { typeUrl : jsstring; value : MsgExecuteContract.Partial }.

(** ** The composer *)

Definition set_sender (v : jsstring) (i : TemplateMessageComposer) : TemplateMessageComposer :=
  {| sender := Some v;
     contractAddress := contractAddress i;
     updateConfig_property := updateConfig_property i |}.

Definition set_contractAddress (v : jsstring) (i : TemplateMessageComposer) : TemplateMessageComposer :=
  {| sender := sender i;
     contractAddress := Some v;
     updateConfig_property := updateConfig_property i |}.

Definition set_updateConfig (f : closure) (i : TemplateMessageComposer) : TemplateMessageComposer :=
  {| sender := sender i;
     contractAddress := contractAddress i;
     updateConfig_property := Some f |}.

(** Assignment to the fields of a composer by its user, [composer.sender = v]
    and [composer.contractAddress = v]: the class declares both fields
    without [readonly] (lines 19 and 20), and so does the interface
    [TemplateMessage] (lines 14 and 15). *)
Definition assign_sender (composer : loc) (v : jsstring) : M unit :=
  set_property (set_sender v) composer.

Definition assign_contractAddress (composer : loc) (v : jsstring) : M unit :=
  set_property (set_contractAddress v) composer.

(** What a computation gives its caller, the store apart: a value or an
    exception. *)
Definition result_of {A} (o : outcome A) : A + exn :=
  match o with
  | Return a _ => inl a
  | Throw e _ => inr e
  end.

(** A function rebound any number of times, [f.bind(a1).bind(a2)...]. *)
Definition rebind (f : closure) (thisArgs : list loc) : closure :=
  fold_left Bound thisArgs f.

(** ** The task runner

    The recipes of the justfile that follows the composer in the sources
    (lines 43 to 87).  A recipe is a script of shell commands; what a command
    does is left to the machine, which reports whether it exited with status
    zero. *)
Module Justfile.

(** [workspaces := "./framework ./modules ./app-template"] (line 43). *)
Definition workspaces : string := "./framework ./modules ./app-template"%string.

Definition is_blank (a : ascii) : bool :=
  Ascii.eqb a " " || Ascii.eqb a "009" || Ascii.eqb a "010".

(** The words of a text, as the shell splits the list of a [for] loop at
    blanks; [word] is the word being read. *)
Fixpoint words_from (word text : string) : list string :=
  match text with
  | EmptyString =>
      match word with
      | EmptyString => []
      | _ => [word]
      end
  | String a rest =>
      if is_blank a then
        match word with
        | EmptyString => words_from EmptyString rest
        | _ => word :: words_from EmptyString rest
        end
      else words_from (String.append word (String a EmptyString)) rest
  end.

Definition words (text : string) : list string := words_from EmptyString text.

(** [{{command}}] for the variadic parameter [*command]: the arguments,
    separated by spaces. *)
Fixpoint interpolate (arguments : list string) : string :=
  match arguments with
  | [] => EmptyString
  | [a] => a
  | a :: rest => String.append a (String " " (interpolate rest))
  end.

(** The body of the loop of [cargo-all] (line 59), for one value of [$path]:
    [(cd $path; cargo {{command}})]. *)
Definition in_workspace (path command : string) : string :=
  String.append "(cd "
    (String.append path (String.append "; cargo " (String.append command ")"))).

Section Shell.

Variable world : Type.

(** Running one command: the world after it, and whether it exited with
    status zero. *)
Variable exec : string -> world -> world * bool.

(** A script under [set -e]: the commands run in order, and the script
    exits at the first one that fails.  The result is the list of the
    commands that were run, each with its success, and the world left. *)
Fixpoint errexit (script : list string) (w : world) : list (string * bool) * world :=
  match script with
  | [] => ([], w)
  | command :: rest =>
      let (w', ok) := exec command w in
      if ok then
        let (trace, w'') := errexit rest w' in ((command, true) :: trace, w'')
      else ([(command, false)], w')
  end.

(** The recipe [cargo-all *command] (lines 54 to 61). *)
Definition cargo_all (command : list string) (w : world)
  : list (string * bool) * world :=
  errexit (map (fun path => in_workspace path (interpolate command))
               (words workspaces)) w.

(** The recipe [nightly-build] (lines 69 and 70):
    [just cargo-all build --all-features]. *)
Definition nightly_build (w : world) : list (string * bool) * world :=
  cargo_all ["build"; "--all-features"]%string w.

(** The recipe [schema] (lines 81 to 87). *)
Definition schema (w : world) : list (string * bool) * world :=
  errexit ["(cd app-template; cargo run --example schema --features schema)";
           "sh scripts/modules-schema.sh";
           "sh scripts/framework-schema.sh"]%string w.

End Shell.

(** A machine for the examples: the world counts the commands run, and the
    command whose number is [failing] fails. *)
Definition counting (failing : nat) (command : string) (w : nat) : nat * bool :=
  (S w, negb (Nat.eqb w failing)).

End Justfile.

Section Composer.

(** The key under which the host framework expects the action of an app.
    It is fixed by the package @abstract-money/abstract.js and is a
    parameter here. *)
Variable module_key : jsstring.

(** Modelled from the spec: [AppExecuteMsgFactory.executeApp] belongs to the
    package @abstract-money/abstract.js, whose code is not among the
    sources.  It "nests the inner action under a well-known key" of an
    outer object (section 4.1, step 2), a "fixed wrapper key" (section 8,
    property 6). *)
Definition executeApp (request : Json) : Json :=
  JObject [(module_key, request)].

(** [new TemplateMessageComposer(sender, contractAddress)].  The new object
    first receives the class field [updateConfig], the arrow function of
    line 28; then the body of the constructor runs (lines 23 to 25). *)
Definition constructor (sender contractAddress : jsstring) : M loc :=
  this <- alloc (Instance (make_instance None None None)) ;;
  set_property (set_updateConfig (Arrow this)) this ;;
  set_property (set_sender sender) this ;;
  set_property (set_contractAddress contractAddress) this ;;
  f <- get_property updateConfig_property this ;;
  match f with
  | Some f => set_property (set_updateConfig (Bound f this)) this
  | None => throw (TypeError Composer)
  end ;;
  ret this.

(** The arrow function [updateConfig] of the instance [this] (lines 28 to
    42). *)
Definition updateConfig (this : loc) (_funds : option loc)
  : M MsgExecuteContractEncodeObject :=
  let msg := JObject [(lit "update_config", JObject [])] in
  let moduleMsg := executeApp msg in
  sender <- get_property sender this ;;
  contract <- get_property contractAddress this ;;
  value <- MsgExecuteContract.fromPartial
             {| MsgExecuteContract.d_sender := sender;
                MsgExecuteContract.d_contract := contract;
                MsgExecuteContract.d_msg := Some (toUtf8 (JSON_stringify moduleMsg));
                MsgExecuteContract.d_funds := _funds |} ;;
  ret {| typeUrl := lit "/cosmwasm.wasm.v1.MsgExecuteContract";
         value := MsgExecuteContract.to_Partial value |}.

(** Calling a function value.  An arrow function keeps the [this] it closed
    over, so the [thisArg] of [bind] is of no effect. *)
Fixpoint call (f : closure) (_funds : option loc)
  : M MsgExecuteContractEncodeObject :=
  match f with
  | Arrow this => updateConfig this _funds
  | Bound target _ => call target _funds
  end.

(** The method call [composer.updateConfig(_funds)]. *)
Definition call_updateConfig (composer : loc) (_funds : option loc)
  : M MsgExecuteContractEncodeObject :=
  f <- get_property updateConfig_property composer ;;
  match f with
  | Some f => call f _funds
  | None => throw (TypeError Caller)
  end.

(** [composer.updateConfig(f)] for each [f] of [calls] in turn, on one
    composer. *)
Fixpoint call_each (composer : loc) (calls : list (option loc))
  : M (list MsgExecuteContractEncodeObject) :=
  match calls with
  | [] => ret []
  | _funds :: calls' =>
      e <- call_updateConfig composer _funds ;;
      es <- call_each composer calls' ;;
      ret (e :: es)
  end.

(** The message every envelope carries: the action [update_config], with no
    fields, wrapped by [executeApp]. *)
Definition moduleMsg : Json :=
  executeApp (JObject [(lit "update_config", JObject [])]).

(** The envelope of a composer made from [s] and [c], for the funds
    [coins]. *)
Definition envelope (s c : jsstring) (coins : option (list Coin.t))
  : MsgExecuteContractEncodeObject :=
  {| typeUrl := lit "/cosmwasm.wasm.v1.MsgExecuteContract";
     value :=
       {| MsgExecuteContract.p_sender := Some s;
          MsgExecuteContract.p_contract := Some c;
          MsgExecuteContract.p_msg := Some (toUtf8 (JSON_stringify moduleMsg));
          MsgExecuteContract.p_funds :=
            Some (match coins with Some cs => cs | None => [] end) |} |}.

(** ** Well-formed stores *)

(** The object at [l] is a composer as the constructor leaves it, made from
    [s] and [c]. *)
Definition is_composer (h : heap) (l : loc) (s c : jsstring) : Prop :=
  nth_error h l
  = Some (Instance (make_instance (Some s) (Some c) (Some (Bound (Arrow l) l)))).

Definition coins_at (h : heap) (l : loc) : option (list Coin.t) :=
  match nth_error h l with
  | Some (CoinArray coins) => Some coins
  | _ => None
  end.

(** The argument [_funds], of type [Coin[] | undefined], and the coins it
    stands for in the store: none when it is omitted, those of the array it
    refers to otherwise. *)
Inductive funds_argument (h : heap) : option loc -> option (list Coin.t) -> Prop :=
| funds_omitted : funds_argument h None None
| funds_given (l : loc) (coins : list Coin.t) :
    coins_at h l = Some coins -> funds_argument h (Some l) (Some coins).

(** The argument [_funds] is well typed in the store. *)
Definition well_typed_funds (h : heap) (f : option loc) : Prop :=
  exists coins, funds_argument h f coins.

(** A code unit has sixteen bits. *)
Definition is_code_unit (u : N) : bool := u <? 0x10000.

Definition is_surrogate (u : N) : bool :=
  is_high_surrogate u || is_low_surrogate u.

(** A string is well formed when it has no lone surrogate
    ([String.prototype.isWellFormed]). *)
Fixpoint well_formed (s : jsstring) : bool :=
  match s with
  | [] => true
  | u :: rest =>
      if is_high_surrogate u then
        match rest with
        | v :: rest' => is_low_surrogate v && well_formed rest'
        | [] => false
        end
      else negb (is_low_surrogate u) && well_formed rest
  end.

(** A code point that UTF-8 encodes: below 0x110000 and not a surrogate. *)
Definition is_scalar_value (c : N) : bool :=
  (c <? 0x110000) && negb ((0xD800 <=? c) && (c <=? 0xDFFF)).

(** The text after the wrapper key in the serialized message. *)
Definition after_key : jsstring :=
  0x22 :: 0x3A :: JSON_stringify (JObject [(lit "update_config", JObject [])]) ++ [0x7D].

(** A store with an array of one coin, and the same store after
    [new TemplateMessageComposer(s, c)], where [s] is "cosmos1" followed by
    U+00E4 and [c] is "cosmos1" followed by U+20AC. *)
Definition example_coins : list Coin.t :=
  [Coin.make (lit "uusd") (lit "100")].

Definition example_sender : jsstring := lit "cosmos1" ++ [0xE4].
Definition example_contract : jsstring := lit "cosmos1" ++ [0x20AC].

Definition example_store : heap :=
  [CoinArray example_coins;
   Instance (make_instance (Some example_sender) (Some example_contract)
                           (Some (Bound (Arrow 1%nat) 1%nat)))].

(** Another store: one composer, made from two empty strings, and no
    array. *)
Definition other_store : heap :=
  [Instance (make_instance (Some []) (Some []) (Some (Bound (Arrow 0%nat) 0%nat)))].

(** The first store, later: a second array, of the same coins, has been
    allocated. *)
Definition later_store : heap := example_store ++ [CoinArray example_coins].

(** The wrapper key of the examples. *)
Definition example_key : jsstring := lit "module".

(** ** Facts about the store *)

Lemma nth_error_snoc (h : heap) (o : object) :
  nth_error (h ++ [o]) (List.length h) = Some o.
Proof.
  induction h as [|x h IH]; simpl; [reflexivity | exact IH].
Qed.

Lemma heap_set_snoc (h : heap) (o o' : object) :
  heap_set (h ++ [o]) (List.length h) o' = h ++ [o'].
Proof.
  induction h as [|x h IH]; simpl; [reflexivity | now rewrite IH].
Qed.

Lemma nth_error_extend (h extra : heap) (l : loc) :
  (l < List.length h)%nat -> nth_error (h ++ extra) l = nth_error h l.
Proof.
  intros Hl. now apply nth_error_app1.
Qed.

(** Objects allocated later leave a composer and an array of coins what
    they are. *)
Lemma is_composer_extend (h extra : heap) (l : loc) (s c : jsstring) :
  is_composer h l s c -> is_composer (h ++ extra) l s c.
Proof.
  unfold is_composer. intros H.
  rewrite nth_error_extend; [exact H |].
  apply nth_error_Some. rewrite H. discriminate.
Qed.

Lemma funds_argument_extend (h extra : heap) (f : option loc) (coins : option (list Coin.t)) :
  funds_argument h f coins -> funds_argument (h ++ extra) f coins.
Proof.
  intros [|l cs H]; constructor.
  unfold coins_at in *.
  destruct (nth_error h l) as [o|] eqn:E; [| discriminate].
  rewrite nth_error_extend; [now rewrite E |].
  apply nth_error_Some. rewrite E. discriminate.
Qed.

Lemma Coin_fromPartial_to_partial (c : Coin.t) :
  Coin.fromPartial (Coin.to_partial c) = c.
Proof.
  destruct c. reflexivity.
Qed.

Lemma map_Coin_fromPartial (coins : list Coin.t) :
  map (fun e => Coin.fromPartial (Coin.to_partial e)) coins = coins.
Proof.
  induction coins as [|c coins IH]; simpl.
  - reflexivity.
  - now rewrite Coin_fromPartial_to_partial, IH.
Qed.

(** ** The constructor *)

(** What [new TemplateMessageComposer(s, c)] does to a store: one object
    more, the composer, at the first free location. *)
Lemma constructor_run (h : heap) (s c : jsstring) :
  constructor s c h
  = Return (List.length h)
      (h ++ [Instance (make_instance (Some s) (Some c)
                         (Some (Bound (Arrow (List.length h)) (List.length h))))]).
Proof.
  unfold constructor, bind, alloc, set_property, get_property, ret.
  repeat (rewrite ?nth_error_snoc, ?heap_set_snoc; simpl).
  reflexivity.
Qed.

Lemma constructor_is_composer (h : heap) (s c : jsstring) :
  exists this h',
    constructor s c h = Return this h' /\ is_composer h' this s c.
Proof.
  eexists _, _. split; [apply constructor_run |].
  unfold is_composer. now rewrite nth_error_snoc.
Qed.

(** ** One call *)

Lemma updateConfig_run (h : heap) (this : loc) (s c : jsstring)
      (f : option loc) (coins : option (list Coin.t)) :
  is_composer h this s c -> funds_argument h f coins ->
  updateConfig this f h = Return (envelope s c coins) h.
Proof.
  unfold is_composer. intros Hthis Hf.
  unfold updateConfig, bind, get_property. rewrite Hthis. simpl.
  unfold MsgExecuteContract.fromPartial, bind. simpl.
  destruct Hf as [|l cs Hl]; simpl.
  - reflexivity.
  - unfold MsgExecuteContract.read_array, coins_at in *.
    destruct (nth_error h l) as [[i|cs']|]; try discriminate.
    injection Hl as ->. unfold ret, envelope. simpl.
    now rewrite map_Coin_fromPartial.
Qed.

Lemma call_updateConfig_run (h : heap) (this : loc) (s c : jsstring)
      (f : option loc) (coins : option (list Coin.t)) :
  is_composer h this s c -> funds_argument h f coins ->
  call_updateConfig this f h = Return (envelope s c coins) h.
Proof.
  intros Hthis Hf.
  unfold call_updateConfig, bind, get_property.
  rewrite Hthis. simpl.
  now apply updateConfig_run.
Qed.

(** Whatever the store and the arguments, [updateConfig] leaves the store as
    it found it. *)
Lemma updateConfig_store (h : heap) (this : loc) (f : option loc) :
  store_after (updateConfig this f h) = h.
Proof.
  unfold updateConfig, bind, get_property, MsgExecuteContract.fromPartial, bind.
  destruct f as [l|]; simpl; [| reflexivity].
  unfold MsgExecuteContract.read_array.
  destruct (nth_error h l) as [[i|cs]|]; reflexivity.
Qed.

Lemma call_store (g : closure) (h : heap) (f : option loc) :
  store_after (call g f h) = h.
Proof.
  induction g as [this|g IH thisArg]; simpl; [apply updateConfig_store | exact IH].
Qed.

Lemma call_updateConfig_store (h : heap) (composer : loc) (f : option loc) :
  store_after (call_updateConfig composer f h) = h.
Proof.
  unfold call_updateConfig, bind, get_property.
  destruct (match nth_error h composer with
            | Some (Instance i) => updateConfig_property i
            | _ => None
            end) as [g|]; [apply call_store | reflexivity].
Qed.

(** An exception that leaves [updateConfig] was thrown by a library. *)
Lemma updateConfig_throw (h h' : heap) (this : loc) (f : option loc) (e : exn) :
  updateConfig this f h = Throw e h' -> e = TypeError Library.
Proof.
  unfold updateConfig, bind, get_property, MsgExecuteContract.fromPartial, bind.
  destruct f as [l|]; simpl; [| discriminate].
  unfold MsgExecuteContract.read_array.
  destruct (nth_error h l) as [[i|cs]|]; simpl; intros H;
    try discriminate; now injection H as <- _.
Qed.

(** ** Decoding the payload *)

(** Bit operations as arithmetic. *)
Ltac Zify.zify_post_hook ::= Z.to_euclidean_division_equations.

Lemma lor_add (a b n : N) : b < 2 ^ n -> N.lor (a * 2 ^ n) b = a * 2 ^ n + b.
Proof.
  intros Hb.
  assert (H : N.land (a * 2 ^ n) b = 0).
  { apply N.bits_inj_0. intros m. rewrite N.land_spec, <- N.shiftl_mul_pow2.
    destruct (N.lt_ge_cases m n) as [Hm|Hm].
    - now rewrite N.shiftl_spec_low.
    - replace (N.testbit b m) with false; [apply andb_false_r |].
      symmetry. destruct (N.eq_dec b 0) as [->|Hb0]; [apply N.bits_0 |].
      apply N.bits_above_log2. apply N.lt_le_trans with n; [| exact Hm].
      apply N.log2_lt_pow2; [apply N.neq_0_lt_0; exact Hb0 | exact Hb]. }
  rewrite <- N.lxor_lor by exact H. symmetry. now apply N.add_nocarry_lxor.
Qed.

Lemma land_low (c n : N) : N.land c (N.ones n) = c mod 2 ^ n.
Proof. apply N.land_ones. Qed.

Lemma land_0xF (c : N) : N.land c 0xF = c mod 16.
Proof. exact (land_low c 4). Qed.

Lemma land_0x3F (c : N) : N.land c 0x3F = c mod 64.
Proof. exact (land_low c 6). Qed.

Lemma land_0x1F (c : N) : N.land c 0x1F = c mod 32.
Proof. exact (land_low c 5). Qed.

Lemma land_0x07 (c : N) : N.land c 0x07 = c mod 8.
Proof. exact (land_low c 3). Qed.

Lemma land_0x3FF (c : N) : N.land c 0x3FF = c mod 1024.
Proof. exact (land_low c 10). Qed.

Lemma shiftr_div (c n : N) : N.shiftr c n = c / 2 ^ n.
Proof. apply N.shiftr_div_pow2. Qed.

Lemma shiftl_mul (c n : N) : N.shiftl c n = c * 2 ^ n.
Proof. apply N.shiftl_mul_pow2. Qed.

(** The octets of a code point, by its size. *)
Lemma utf8_code_point_2 (c : N) :
  0x80 <= c < 0x800 -> utf8_code_point c = [0xC0 + c / 64; 0x80 + c mod 64].
Proof.
  intros H. unfold utf8_code_point.
  destruct (N.ltb_spec c 0x80); [lia |].
  destruct (N.ltb_spec c 0x800); [| lia].
  rewrite land_0x3F, shiftr_div.
  change 0xC0 with (6 * 2 ^ 5). change 0x80 with (2 * 2 ^ 6).
  rewrite !lor_add; [reflexivity | |]; change (2 ^ 6) with 64; change (2 ^ 5) with 32; lia.
Qed.

Lemma utf8_code_point_3 (c : N) :
  0x800 <= c < 0x10000 ->
  utf8_code_point c = [0xE0 + c / 4096; 0x80 + (c / 64) mod 64; 0x80 + c mod 64].
Proof.
  intros H. unfold utf8_code_point.
  destruct (N.ltb_spec c 0x80); [lia |].
  destruct (N.ltb_spec c 0x800); [lia |].
  destruct (N.ltb_spec c 0x10000); [| lia].
  rewrite !land_0x3F, !shiftr_div.
  change 0xE0 with (14 * 2 ^ 4). change 0x80 with (2 * 2 ^ 6).
  rewrite !lor_add; [reflexivity | | |];
    change (2 ^ 6) with 64; change (2 ^ 4) with 16; change (2 ^ 12) with 4096; lia.
Qed.

Lemma utf8_code_point_4 (c : N) :
  0x10000 <= c < 0x110000 ->
  utf8_code_point c
  = [0xF0 + c / 262144; 0x80 + (c / 4096) mod 64; 0x80 + (c / 64) mod 64; 0x80 + c mod 64].
Proof.
  intros H. unfold utf8_code_point.
  destruct (N.ltb_spec c 0x80); [lia |].
  destruct (N.ltb_spec c 0x800); [lia |].
  destruct (N.ltb_spec c 0x10000); [lia |].
  rewrite !land_0x3F, !shiftr_div.
  change 0xF0 with (30 * 2 ^ 3). change 0x80 with (2 * 2 ^ 6).
  rewrite !lor_add; [reflexivity | | | |];
    change (2 ^ 6) with 64; change (2 ^ 3) with 8; change (2 ^ 12) with 4096;
    change (2 ^ 18) with 262144; lia.
Qed.

(** One step of the decoder, by the size of the sequence. *)
Lemma utf8_code_points_1 (b0 : N) (rest : Uint8Array) :
  b0 < 0x80 ->
  utf8_code_points (b0 :: rest) = option_map (cons b0) (utf8_code_points rest).
Proof.
  intros H. cbn [utf8_code_points].
  destruct (N.ltb_spec b0 0x80); [reflexivity | lia].
Qed.

Lemma utf8_code_points_2 (b0 b1 : N) (rest : Uint8Array) :
  0xC2 <= b0 <= 0xDF -> 0x80 <= b1 <= 0xBF ->
  utf8_code_points (b0 :: b1 :: rest)
  = option_map (cons (b0 mod 32 * 64 + b1 mod 64)) (utf8_code_points rest).
Proof.
  intros H0 H1. cbn [utf8_code_points]. unfold is_continuation.
  destruct (N.ltb_spec b0 0x80); [lia |].
  destruct (N.leb_spec 0xC2 b0); [| lia].
  destruct (N.leb_spec b0 0xDF); [| lia].
  destruct (N.leb_spec 0x80 b1); [| lia].
  destruct (N.leb_spec b1 0xBF); [| lia].
  cbn [andb]. rewrite land_0x1F, land_0x3F, shiftl_mul.
  rewrite lor_add by (change (2 ^ 6) with 64; lia).
  reflexivity.
Qed.

Lemma utf8_code_points_3 (b0 b1 b2 : N) (rest : Uint8Array) :
  0xE0 <= b0 <= 0xEF -> 0x80 <= b1 <= 0xBF -> 0x80 <= b2 <= 0xBF ->
  (b0 = 0xE0 -> 0xA0 <= b1) -> (b0 = 0xED -> b1 <= 0x9F) ->
  utf8_code_points (b0 :: b1 :: b2 :: rest)
  = option_map (cons (b0 mod 16 * 4096 + (b1 mod 64 * 64 + b2 mod 64)))
               (utf8_code_points rest).
Proof.
  intros H0 H1 H2 Hlow Hhigh. cbn [utf8_code_points]. unfold is_continuation.
  destruct (N.ltb_spec b0 0x80); [lia |].
  destruct (N.leb_spec 0xC2 b0); [| lia].
  destruct (N.leb_spec b0 0xDF); [lia |].
  destruct (N.leb_spec 0xE0 b0); [| lia].
  destruct (N.leb_spec b0 0xEF); [| lia].
  cbn [andb].
  destruct (N.eqb_spec b0 0xE0); destruct (N.eqb_spec b0 0xED); try lia;
    repeat match goal with
           | |- context [?a <=? ?b] => destruct (N.leb_spec a b); [| lia]
           end;
    cbn [andb]; rewrite land_0xF, !land_0x3F, !shiftl_mul;
    rewrite (lor_add (b1 mod 64)) by (change (2 ^ 6) with 64; lia);
    rewrite lor_add by (change (2 ^ 6) with 64; change (2 ^ 12) with 4096; lia);
    reflexivity.
Qed.

Lemma utf8_code_points_4 (b0 b1 b2 b3 : N) (rest : Uint8Array) :
  0xF0 <= b0 <= 0xF4 -> 0x80 <= b1 <= 0xBF -> 0x80 <= b2 <= 0xBF -> 0x80 <= b3 <= 0xBF ->
  (b0 = 0xF0 -> 0x90 <= b1) -> (b0 = 0xF4 -> b1 <= 0x8F) ->
  utf8_code_points (b0 :: b1 :: b2 :: b3 :: rest)
  = option_map (cons (b0 mod 8 * 262144
                      + (b1 mod 64 * 4096 + (b2 mod 64 * 64 + b3 mod 64))))
               (utf8_code_points rest).
Proof.
  intros H0 H1 H2 H3 Hlow Hhigh. cbn [utf8_code_points]. unfold is_continuation.
  destruct (N.ltb_spec b0 0x80); [lia |].
  destruct (N.leb_spec 0xC2 b0); [| lia].
  destruct (N.leb_spec b0 0xDF); [lia |].
  destruct (N.leb_spec 0xE0 b0); [| lia].
  destruct (N.leb_spec b0 0xEF); [lia |].
  destruct (N.leb_spec 0xF0 b0); [| lia].
  destruct (N.leb_spec b0 0xF4); [| lia].
  cbn [andb].
  destruct (N.eqb_spec b0 0xF0); destruct (N.eqb_spec b0 0xF4); try lia;
    repeat match goal with
           | |- context [?a <=? ?b] => destruct (N.leb_spec a b); [| lia]
           end;
    cbn [andb]; rewrite land_0x07, !land_0x3F, !shiftl_mul;
    rewrite (lor_add (b2 mod 64)) by (change (2 ^ 6) with 64; lia);
    rewrite (lor_add (b1 mod 64))
      by (change (2 ^ 6) with 64; change (2 ^ 12) with 4096; lia);
    rewrite lor_add
      by (change (2 ^ 6) with 64; change (2 ^ 12) with 4096;
          change (2 ^ 18) with 262144; lia);
    reflexivity.
Qed.

Lemma is_scalar_value_spec (c : N) :
  is_scalar_value c = true <-> c < 0x110000 /\ (c < 0xD800 \/ 0xDFFF < c).
Proof.
  unfold is_scalar_value.
  destruct (N.ltb_spec c 0x110000); destruct (N.leb_spec 0xD800 c);
    destruct (N.leb_spec c 0xDFFF); cbn; split; intros; try discriminate;
    try reflexivity; lia.
Qed.

(** The octets of a scalar value decode to it. *)
Lemma utf8_code_points_code_point (c : N) (rest : Uint8Array) :
  is_scalar_value c = true ->
  utf8_code_points (utf8_code_point c ++ rest)
  = option_map (cons c) (utf8_code_points rest).
Proof.
  intros H. apply is_scalar_value_spec in H.
  destruct (N.lt_ge_cases c 0x80);
    [| destruct (N.lt_ge_cases c 0x800); [| destruct (N.lt_ge_cases c 0x10000)]].
  - unfold utf8_code_point. destruct (N.ltb_spec c 0x80); [| lia].
    cbn [app]. now apply utf8_code_points_1.
  - rewrite utf8_code_point_2 by lia. cbn [app].
    rewrite utf8_code_points_2 by lia. f_equal. f_equal. lia.
  - rewrite utf8_code_point_3 by lia. cbn [app].
    rewrite utf8_code_points_3 by lia. f_equal. f_equal. lia.
  - rewrite utf8_code_point_4 by lia. cbn [app].
    rewrite utf8_code_points_4 by lia. f_equal. f_equal. lia.
Qed.

Lemma utf8_code_points_encode (cs : list N) :
  forallb is_scalar_value cs = true ->
  utf8_code_points (flat_map utf8_code_point cs) = Some cs.
Proof.
  induction cs as [|c cs IH]; cbn [flat_map forallb]; [reflexivity |].
  rewrite andb_true_iff. intros [Hc Hcs].
  rewrite utf8_code_points_code_point, IH by assumption. reflexivity.
Qed.

(** Strings, two code units at a time. *)
Lemma pair_induction (P : jsstring -> Prop) :
  P [] -> (forall u, P [u]) ->
  (forall u v s, P s -> P (v :: s) -> P (u :: v :: s)) ->
  forall s, P s.
Proof.
  intros H0 H1 H2 s. enough (P s /\ forall u, P (u :: s)) by tauto.
  induction s as [|v s [IH1 IH2]]; split; auto.
Qed.

Lemma is_high_surrogate_spec (u : N) :
  reflect (0xD800 <= u <= 0xDBFF) (is_high_surrogate u).
Proof.
  unfold is_high_surrogate.
  destruct (N.leb_spec0 0xD800 u); destruct (N.leb_spec0 u 0xDBFF);
    constructor; lia.
Qed.

Lemma is_low_surrogate_spec (u : N) :
  reflect (0xDC00 <= u <= 0xDFFF) (is_low_surrogate u).
Proof.
  unfold is_low_surrogate.
  destruct (N.leb_spec0 0xDC00 u); destruct (N.leb_spec0 u 0xDFFF);
    constructor; lia.
Qed.

Lemma is_surrogate_spec (u : N) :
  reflect (0xD800 <= u <= 0xDFFF) (is_surrogate u).
Proof.
  unfold is_surrogate.
  destruct (is_high_surrogate_spec u); destruct (is_low_surrogate_spec u);
    constructor; lia.
Qed.

Lemma is_code_unit_spec (u : N) : is_code_unit u = true <-> u < 0x10000.
Proof. apply N.ltb_lt. Qed.

Lemma scalar_values_cons (u : N) (rest : jsstring) :
  scalar_values (u :: rest)
  = if is_high_surrogate u then
      match rest with
      | v :: rest' =>
          if is_low_surrogate v
          then pair_code_point u v :: scalar_values rest'
          else 0xFFFD :: scalar_values rest
      | [] => [0xFFFD]
      end
    else if is_low_surrogate u then 0xFFFD :: scalar_values rest
    else u :: scalar_values rest.
Proof. reflexivity. Qed.

Lemma well_formed_cons (u : N) (rest : jsstring) :
  well_formed (u :: rest)
  = if is_high_surrogate u then
      match rest with
      | v :: rest' => is_low_surrogate v && well_formed rest'
      | [] => false
      end
    else negb (is_low_surrogate u) && well_formed rest.
Proof. reflexivity. Qed.

Lemma is_scalar_value_pair (u v : N) :
  0xD800 <= u <= 0xDBFF -> 0xDC00 <= v <= 0xDFFF ->
  is_scalar_value (pair_code_point u v) = true.
Proof.
  intros Hu Hv. apply is_scalar_value_spec. unfold pair_code_point. lia.
Qed.

Lemma is_scalar_value_unit (u : N) :
  u < 0x10000 -> ~ 0xD800 <= u <= 0xDBFF -> ~ 0xDC00 <= u <= 0xDFFF ->
  is_scalar_value u = true.
Proof.
  intros. apply is_scalar_value_spec. lia.
Qed.

(** The scalar values of a string of code units are scalar values. *)
Lemma scalar_values_scalar (s : jsstring) :
  forallb is_code_unit s = true ->
  forallb is_scalar_value (scalar_values s) = true.
Proof.
  induction s as [| u | u v s IHs IHvs] using pair_induction.
  - reflexivity.
  - cbn [forallb]. rewrite andb_true_iff, is_code_unit_spec. intros [Hu _].
    rewrite scalar_values_cons.
    destruct (is_high_surrogate_spec u); [reflexivity |].
    destruct (is_low_surrogate_spec u); [reflexivity |].
    cbn [scalar_values forallb]. now rewrite is_scalar_value_unit.
  - intros H. assert (Hvs : forallb is_code_unit (v :: s) = true).
    { cbn [forallb] in H. now apply andb_true_iff in H. }
    assert (Hs : forallb is_code_unit s = true).
    { cbn [forallb] in Hvs. now apply andb_true_iff in Hvs. }
    assert (Hu : u < 0x10000).
    { cbn [forallb] in H. apply andb_true_iff in H. now apply is_code_unit_spec. }
    specialize (IHs Hs). specialize (IHvs Hvs).
    rewrite scalar_values_cons.
    destruct (is_high_surrogate_spec u).
    + destruct (is_low_surrogate_spec v).
      * cbn [forallb]. now rewrite is_scalar_value_pair.
      * cbn [forallb]. now rewrite IHvs.
    + destruct (is_low_surrogate_spec u); cbn [forallb].
      * now rewrite IHvs.
      * now rewrite is_scalar_value_unit.
Qed.

Lemma utf16_units_pair (u v : N) :
  0xD800 <= u <= 0xDBFF -> 0xDC00 <= v <= 0xDFFF ->
  utf16_units (pair_code_point u v) = [u; v].
Proof.
  intros Hu Hv. unfold utf16_units, pair_code_point.
  destruct (N.ltb_spec (0x10000 + (u - 0xD800) * 0x400 + (v - 0xDC00)) 0x10000); [lia |].
  rewrite land_0x3FF, shiftr_div. change (2 ^ 10) with 1024.
  f_equal; [| f_equal]; lia.
Qed.

Lemma utf16_units_unit (u : N) : u < 0x10000 -> utf16_units u = [u].
Proof.
  intros H. unfold utf16_units. destruct (N.ltb_spec u 0x10000); [reflexivity | lia].
Qed.

(** A well-formed string is the UTF-16 form of its scalar values. *)
Lemma utf16_units_scalar_values (s : jsstring) :
  forallb is_code_unit s = true -> well_formed s = true ->
  flat_map utf16_units (scalar_values s) = s.
Proof.
  induction s as [| u | u v s IHs IHvs] using pair_induction.
  - reflexivity.
  - cbn [forallb]. rewrite andb_true_iff, is_code_unit_spec. intros [Hu _].
    rewrite well_formed_cons, scalar_values_cons.
    destruct (is_high_surrogate_spec u); [discriminate |].
    destruct (is_low_surrogate_spec u); [discriminate |].
    intros _. cbn [scalar_values flat_map]. now rewrite utf16_units_unit.
  - intros H. assert (Hvs : forallb is_code_unit (v :: s) = true).
    { cbn [forallb] in H. now apply andb_true_iff in H. }
    assert (Hs : forallb is_code_unit s = true).
    { cbn [forallb] in Hvs. now apply andb_true_iff in Hvs. }
    assert (Hu : u < 0x10000).
    { cbn [forallb] in H. apply andb_true_iff in H. now apply is_code_unit_spec. }
    rewrite (well_formed_cons u), (scalar_values_cons u).
    destruct (is_high_surrogate_spec u).
    + destruct (is_low_surrogate_spec v); [| discriminate].
      cbn [andb flat_map]. intros Hwf.
      rewrite utf16_units_pair, IHs by assumption. reflexivity.
    + destruct (is_low_surrogate_spec u); [discriminate |].
      cbn [andb negb flat_map]. intros Hwf.
      rewrite utf16_units_unit, IHvs by assumption. reflexivity.
Qed.

Lemma scalar_values_head (s : jsstring) (c : N) (cs : list N) :
  hd 0 s <> 0xFEFF -> scalar_values s = c :: cs -> c <> 0xFEFF.
Proof.
  destruct s as [|u rest]; [discriminate |].
  cbn [hd]. intros Hu. rewrite scalar_values_cons.
  destruct (is_high_surrogate_spec u).
  - destruct rest as [|v rest'].
    + intros [= <- _]. discriminate.
    + destruct (is_low_surrogate_spec v); intros [= <- _]; [| discriminate].
      unfold pair_code_point. lia.
  - destruct (is_low_surrogate_spec u); intros [= <- _]; [discriminate | exact Hu].
Qed.

(** A well-formed string that does not begin with a byte order mark comes
    back from its UTF-8 octets. *)
Lemma fromUtf8_toUtf8 (s : jsstring) :
  forallb is_code_unit s = true -> well_formed s = true -> hd 0 s <> 0xFEFF ->
  fromUtf8 (toUtf8 s) = Some s.
Proof.
  intros Hs Hwf Hhd. unfold fromUtf8, toUtf8.
  rewrite utf8_code_points_encode by now apply scalar_values_scalar.
  pose proof (utf16_units_scalar_values s Hs Hwf) as Hback.
  destruct (scalar_values s) as [|c cs] eqn:E.
  - now rewrite <- Hback.
  - destruct (N.eqb_spec c 0xFEFF) as [Hc|_].
    + now destruct (scalar_values_head s c cs Hhd E).
    + now rewrite Hback.
Qed.

(** [toUtf8] makes octets. *)
Lemma utf8_code_point_octets (c : N) :
  is_scalar_value c = true -> Forall (fun b => b < 256) (utf8_code_point c).
Proof.
  intros H. apply is_scalar_value_spec in H.
  destruct (N.lt_ge_cases c 0x80);
    [| destruct (N.lt_ge_cases c 0x800); [| destruct (N.lt_ge_cases c 0x10000)]].
  - unfold utf8_code_point. destruct (N.ltb_spec c 0x80); [| lia].
    repeat constructor. lia.
  - rewrite utf8_code_point_2 by lia. repeat constructor; lia.
  - rewrite utf8_code_point_3 by lia. repeat constructor; lia.
  - rewrite utf8_code_point_4 by lia. repeat constructor; lia.
Qed.

Lemma toUtf8_octets (s : jsstring) :
  forallb is_code_unit s = true -> Forall (fun b => b < 256) (toUtf8 s).
Proof.
  intros Hs. apply scalar_values_scalar in Hs. unfold toUtf8.
  induction (scalar_values s) as [|c cs IH]; cbn [flat_map]; [constructor |].
  cbn [forallb] in Hs. apply andb_true_iff in Hs as [Hc Hcs].
  apply Forall_app. split; [now apply utf8_code_point_octets | now apply IH].
Qed.

(** Quoting and reading back one string. *)
Lemma quote_units_cons (u : N) (rest : jsstring) :
  quote_units (u :: rest)
  = if is_high_surrogate u then
      match rest with
      | v :: rest' =>
          if is_low_surrogate v then u :: v :: quote_units rest'
          else quote_unit u ++ quote_units rest
      | [] => quote_unit u
      end
    else quote_unit u ++ quote_units rest.
Proof. reflexivity. Qed.

Lemma quote_units_single (u : N) : quote_units [u] = quote_unit u.
Proof.
  rewrite quote_units_cons. cbn [quote_units]. rewrite app_nil_r.
  now destruct (is_high_surrogate u).
Qed.

Lemma hex_digit_range (d : N) : d < 16 -> 0x30 <= hex_digit d <= 0x66.
Proof.
  intros H. unfold hex_digit. destruct (N.ltb_spec d 10); lia.
Qed.

Lemma hex_value_hex_digit (d : N) : d < 16 -> hex_value (hex_digit d) = Some d.
Proof.
  intros H. unfold hex_digit, hex_value.
  destruct (N.ltb_spec d 10).
  - destruct (N.leb_spec 0x30 (0x30 + d)); [| lia].
    destruct (N.leb_spec (0x30 + d) 0x39); [| lia].
    cbn [andb]. f_equal. lia.
  - destruct (N.leb_spec 0x30 (0x61 + (d - 10))); [| lia].
    destruct (N.leb_spec (0x61 + (d - 10)) 0x39); [lia |].
    destruct (N.leb_spec 0x41 (0x61 + (d - 10))); [| lia].
    destruct (N.leb_spec (0x61 + (d - 10)) 0x46); [lia |].
    destruct (N.leb_spec 0x61 (0x61 + (d - 10))); [| lia].
    destruct (N.leb_spec (0x61 + (d - 10)) 0x66); [| lia].
    cbn [andb]. f_equal. lia.
Qed.

(** The four digits of [\uXXXX] are those of the code unit. *)
Lemma unicode_escape_digits (u : N) :
  u < 0x10000 ->
  exists a b c d,
    unicode_escape u = [0x5C; 0x75; a; b; c; d]
    /\ hex4 a b c d = Some u
    /\ a < 0x80 /\ b < 0x80 /\ c < 0x80 /\ d < 0x80.
Proof.
  intros Hu. unfold unicode_escape.
  rewrite !land_0xF, !shiftr_div.
  change (2 ^ 12) with 4096. change (2 ^ 8) with 256. change (2 ^ 4) with 16.
  eexists _, _, _, _. split; [reflexivity |].
  assert (H3 : (u / 4096) mod 16 < 16) by lia.
  assert (H2 : (u / 256) mod 16 < 16) by lia.
  assert (H1 : (u / 16) mod 16 < 16) by lia.
  assert (H0 : u mod 16 < 16) by lia.
  split.
  - unfold hex4. rewrite !hex_value_hex_digit by assumption. f_equal. lia.
  - pose proof (hex_digit_range _ H3). pose proof (hex_digit_range _ H2).
    pose proof (hex_digit_range _ H1). pose proof (hex_digit_range _ H0).
    repeat split; lia.
Qed.

(** What [quote_unit] writes: a one-letter escape, a [\uXXXX] escape, or
    the code unit itself. *)
Lemma quote_unit_cases (u : N) :
  u < 0x10000 ->
  (exists e, quote_unit u = [0x5C; e] /\ e <> 0x75 /\ simple_escape e = Some u /\ e < 0x80)
  \/ (exists a b c d,
         quote_unit u = [0x5C; 0x75; a; b; c; d]
         /\ hex4 a b c d = Some u
         /\ a < 0x80 /\ b < 0x80 /\ c < 0x80 /\ d < 0x80)
  \/ (quote_unit u = [u] /\ 0x20 <= u /\ u <> 0x22 /\ u <> 0x5C
      /\ is_surrogate u = false).
Proof.
  intros Hu. unfold quote_unit.
  destruct (N.eqb_spec u 0x08) as [->|]; [left; exists 0x62; repeat split; (discriminate || lia) |].
  destruct (N.eqb_spec u 0x09) as [->|]; [left; exists 0x74; repeat split; (discriminate || lia) |].
  destruct (N.eqb_spec u 0x0A) as [->|]; [left; exists 0x6E; repeat split; (discriminate || lia) |].
  destruct (N.eqb_spec u 0x0C) as [->|]; [left; exists 0x66; repeat split; (discriminate || lia) |].
  destruct (N.eqb_spec u 0x0D) as [->|]; [left; exists 0x72; repeat split; (discriminate || lia) |].
  destruct (N.eqb_spec u 0x22) as [->|]; [left; exists 0x22; repeat split; (discriminate || lia) |].
  destruct (N.eqb_spec u 0x5C) as [->|]; [left; exists 0x5C; repeat split; (discriminate || lia) |].
  destruct (N.ltb_spec u 0x20);
    [right; left; now apply unicode_escape_digits |].
  destruct (is_high_surrogate_spec u);
    [right; left; now apply unicode_escape_digits |].
  destruct (is_low_surrogate_spec u);
    [right; left; now apply unicode_escape_digits |].
  right; right. cbn [orb]. repeat split; try assumption.
  destruct (is_surrogate_spec u); [lia | reflexivity].
Qed.

Lemma parse_string_ordinary (u : N) (t : jsstring) :
  0x20 <= u -> u <> 0x22 -> u <> 0x5C ->
  parse_string (u :: t) = cons_to u (parse_string t).
Proof.
  intros H1 H2 H3. cbn [parse_string].
  destruct (N.eqb_spec u 0x22); [lia |].
  destruct (N.eqb_spec u 0x5C); [lia |].
  destruct (N.ltb_spec u 0x20); [lia | reflexivity].
Qed.

Lemma parse_string_quote_unit (u : N) (t : jsstring) :
  u < 0x10000 ->
  parse_string (quote_unit u ++ t) = cons_to u (parse_string t).
Proof.
  intros Hu.
  destruct (quote_unit_cases u Hu)
    as [(e & -> & He & Hesc & _)
       | [(a & b & c & d & -> & Hhex & _) | (-> & H1 & H2 & H3 & _)]].
  - cbn [app parse_string]. change (0x5C =? 0x22) with false.
    change (0x5C =? 0x5C) with true. cbn iota.
    destruct (N.eqb_spec e 0x75); [contradiction |].
    now rewrite Hesc.
  - cbn [app parse_string]. change (0x5C =? 0x22) with false.
    change (0x5C =? 0x5C) with true. change (0x75 =? 0x75) with true. cbn iota.
    now rewrite Hhex.
  - cbn [app]. now apply parse_string_ordinary.
Qed.

(** A quoted string is read back, up to its closing quote. *)
Lemma parse_string_quote_units (s rest : jsstring) :
  forallb is_code_unit s = true ->
  parse_string (quote_units s ++ 0x22 :: rest) = Some (s, rest).
Proof.
  induction s as [| u | u v s IHs IHvs] using pair_induction.
  - reflexivity.
  - cbn [forallb]. rewrite andb_true_iff, is_code_unit_spec. intros [Hu _].
    rewrite quote_units_single, parse_string_quote_unit by assumption.
    reflexivity.
  - intros H. assert (Hvs : forallb is_code_unit (v :: s) = true).
    { cbn [forallb] in H. now apply andb_true_iff in H. }
    assert (Hs : forallb is_code_unit s = true).
    { cbn [forallb] in Hvs. now apply andb_true_iff in Hvs. }
    assert (Hu : u < 0x10000).
    { cbn [forallb] in H. apply andb_true_iff in H. now apply is_code_unit_spec. }
    rewrite quote_units_cons.
    destruct (is_high_surrogate_spec u) as [Hhigh|_].
    + destruct (is_low_surrogate_spec v) as [Hlow|_].
      * cbn [app]. rewrite !parse_string_ordinary by lia.
        now rewrite IHs.
      * rewrite <- app_assoc, parse_string_quote_unit, IHvs by assumption.
        reflexivity.
    + rewrite <- app_assoc, parse_string_quote_unit, IHvs by assumption.
      reflexivity.
Qed.

Lemma well_formed_unit (u : N) (t : jsstring) :
  is_surrogate u = false -> well_formed (u :: t) = well_formed t.
Proof.
  intros H. rewrite well_formed_cons.
  destruct (is_surrogate_spec u); [discriminate |].
  destruct (is_high_surrogate_spec u); [lia |].
  destruct (is_low_surrogate_spec u); [lia | reflexivity].
Qed.

Lemma ascii_not_surrogate (u : N) : u < 0x80 -> is_surrogate u = false.
Proof.
  intros H. destruct (is_surrogate_spec u); [lia | reflexivity].
Qed.

Lemma well_formed_quote_unit (u : N) (t : jsstring) :
  u < 0x10000 -> well_formed (quote_unit u ++ t) = well_formed t.
Proof.
  intros Hu.
  destruct (quote_unit_cases u Hu)
    as [(e & -> & _ & _ & He)
       | [(a & b & c & d & -> & _ & Ha & Hb & Hc & Hd) | (-> & _ & _ & _ & H)]];
    cbn [app]; rewrite !well_formed_unit; auto using ascii_not_surrogate.
  all: apply ascii_not_surrogate; lia.
Qed.

(** Quoting leaves no lone surrogate. *)
Lemma well_formed_quote_units (s t : jsstring) :
  forallb is_code_unit s = true ->
  well_formed (quote_units s ++ t) = well_formed t.
Proof.
  induction s as [| u | u v s IHs IHvs] using pair_induction.
  - reflexivity.
  - cbn [forallb]. rewrite andb_true_iff, is_code_unit_spec. intros [Hu _].
    rewrite quote_units_single. now apply well_formed_quote_unit.
  - intros H. assert (Hvs : forallb is_code_unit (v :: s) = true).
    { cbn [forallb] in H. now apply andb_true_iff in H. }
    assert (Hs : forallb is_code_unit s = true).
    { cbn [forallb] in Hvs. now apply andb_true_iff in Hvs. }
    assert (Hu : u < 0x10000).
    { cbn [forallb] in H. apply andb_true_iff in H. now apply is_code_unit_spec. }
    rewrite quote_units_cons.
    destruct (is_high_surrogate_spec u) as [Hhigh|Hhigh].
    + destruct (is_low_surrogate_spec v) as [Hlow|Hlow].
      * cbn [app]. rewrite well_formed_cons.
        destruct (is_high_surrogate_spec u); [| contradiction].
        destruct (is_low_surrogate_spec v); [| contradiction].
        cbn [andb]. now apply IHs.
      * rewrite <- app_assoc, well_formed_quote_unit by assumption. now apply IHvs.
    + rewrite <- app_assoc, well_formed_quote_unit by assumption. now apply IHvs.
Qed.

Lemma is_code_unit_quote_unit (u : N) :
  u < 0x10000 -> forallb is_code_unit (quote_unit u) = true.
Proof.
  intros Hu.
  destruct (quote_unit_cases u Hu)
    as [(e & -> & _ & _ & He)
       | [(a & b & c & d & -> & _ & Ha & Hb & Hc & Hd) | (-> & _)]];
    cbn [forallb]; rewrite ?andb_true_iff; repeat split;
    try reflexivity; apply is_code_unit_spec; lia.
Qed.

Lemma is_code_unit_quote_units (s : jsstring) :
  forallb is_code_unit s = true -> forallb is_code_unit (quote_units s) = true.
Proof.
  induction s as [| u | u v s IHs IHvs] using pair_induction.
  - reflexivity.
  - cbn [forallb]. rewrite andb_true_iff, is_code_unit_spec. intros [Hu _].
    rewrite quote_units_single. now apply is_code_unit_quote_unit.
  - intros H. assert (Hvs : forallb is_code_unit (v :: s) = true).
    { cbn [forallb] in H. now apply andb_true_iff in H. }
    assert (Hs : forallb is_code_unit s = true).
    { cbn [forallb] in Hvs. now apply andb_true_iff in Hvs. }
    assert (Hu : is_code_unit u = true).
    { cbn [forallb] in H. now apply andb_true_iff in H. }
    assert (Hv : is_code_unit v = true).
    { cbn [forallb] in Hvs. now apply andb_true_iff in Hvs. }
    apply is_code_unit_spec in Hu as Hu'.
    rewrite quote_units_cons.
    destruct (is_high_surrogate u).
    + destruct (is_low_surrogate v).
      * cbn [forallb]. now rewrite Hu, Hv, IHs.
      * rewrite forallb_app, is_code_unit_quote_unit, IHvs by assumption. reflexivity.
    + rewrite forallb_app, is_code_unit_quote_unit, IHvs by assumption. reflexivity.
Qed.

(** The serialized message: the quoted wrapper key between fixed texts. *)
Lemma JSON_stringify_moduleMsg :
  JSON_stringify moduleMsg = 0x7B :: 0x22 :: quote_units module_key ++ after_key.
Proof.
  unfold moduleMsg, executeApp, after_key.
  cbn [JSON_stringify map join fst snd]. unfold QuoteJSONString at 1.
  cbn [app]. rewrite <- !app_assoc. reflexivity.
Qed.

Lemma moduleMsg_code_units :
  forallb is_code_unit module_key = true ->
  forallb is_code_unit (0x7B :: 0x22 :: quote_units module_key ++ after_key) = true.
Proof.
  intros Hkey. cbn [forallb].
  rewrite forallb_app, is_code_unit_quote_units by assumption. reflexivity.
Qed.

Lemma moduleMsg_well_formed :
  forallb is_code_unit module_key = true ->
  well_formed (0x7B :: 0x22 :: quote_units module_key ++ after_key) = true.
Proof.
  intros Hkey. rewrite !well_formed_unit by reflexivity.
  rewrite well_formed_quote_units by assumption. reflexivity.
Qed.

(** The two steps of the parser that meet the wrapper key. *)
Lemma parse_value_object (fuel : nat) (rest : jsstring) :
  parse_value (S fuel) (0x7B :: 0x22 :: rest) = parse_members fuel (0x22 :: rest) [].
Proof. reflexivity. Qed.

Lemma parse_members_key (fuel : nat) (rest : jsstring) (acc : list (jsstring * Json)) :
  parse_members (S fuel) (0x22 :: rest) acc
  = match parse_string rest with
    | Some (k, rest1) =>
        match skip_whitespace rest1 with
        | c :: rest2 =>
            if c =? 0x3A then
              match parse_value fuel rest2 with
              | Some (v, rest3) =>
                  match skip_whitespace rest3 with
                  | d :: rest4 =>
                      if d =? 0x2C
                      then parse_members fuel rest4 (define_property k v acc)
                      else if d =? 0x7D
                           then Some (JObject (define_property k v acc), rest4)
                           else None
                  | [] => None
                  end
              | None => None
              end
            else None
        | [] => None
        end
    | None => None
    end.
Proof. reflexivity. Qed.

Lemma JSON_parse_moduleMsg :
  forallb is_code_unit module_key = true ->
  JSON_parse (0x7B :: 0x22 :: quote_units module_key ++ after_key) = Some moduleMsg.
Proof.
  intros Hkey. unfold JSON_parse.
  cbn [List.length]. rewrite length_app.
  replace (List.length after_key) with 23%nat by reflexivity.
  rewrite Nat.add_comm. cbn [Nat.add].
  rewrite parse_value_object, parse_members_key.
  unfold after_key. rewrite parse_string_quote_units by assumption.
  vm_compute. reflexivity.
Qed.

(** The payload decodes to the message it was made from, whatever the
    wrapper key. *)
Lemma decode_payload_moduleMsg :
  forallb is_code_unit module_key = true ->
  decode_payload (toUtf8 (JSON_stringify moduleMsg)) = Some moduleMsg.
Proof.
  intros Hkey. unfold decode_payload.
  rewrite JSON_stringify_moduleMsg.
  rewrite fromUtf8_toUtf8.
  - now apply JSON_parse_moduleMsg.
  - now apply moduleMsg_code_units.
  - now apply moduleMsg_well_formed.
  - discriminate.
Qed.
(** ** The properties of the composer *)

(** C1. Fixed type identifier: for every composer and every funds argument,
    given or omitted, the call returns an envelope whose [typeUrl] is the
    string "/cosmwasm.wasm.v1.MsgExecuteContract". *)
Theorem updateConfig_typeUrl (h : heap) (this : loc) (s c : jsstring)
        (f : option loc) (coins : option (list Coin.t)) :
  is_composer h this s c -> funds_argument h f coins ->
  exists e h',
    call_updateConfig this f h = Return e h'
    /\ typeUrl e = lit "/cosmwasm.wasm.v1.MsgExecuteContract".
Proof.
  intros Hthis Hf. exists (envelope s c coins), h.
  split; [now apply call_updateConfig_run | reflexivity].
Qed.

(** C2. Identity pass-through: a composer constructed from the strings [s]
    and [c], whatever their code units (non-empty strings, with or without
    non-ASCII characters, and the empty string as well), returns envelopes
    with [value.sender] equal to [s] and [value.contract] equal to [c]; the
    call is made in the store the constructor leaves, or later, when other
    objects have been allocated. *)
Theorem updateConfig_identity (h : heap) (s c : jsstring) (later : heap)
        (f : option loc) (coins : option (list Coin.t)) :
  funds_argument (store_after (constructor s c h) ++ later) f coins ->
  exists this h1 e h2,
    constructor s c h = Return this h1
    /\ call_updateConfig this f (h1 ++ later) = Return e h2
    /\ MsgExecuteContract.p_sender (value e) = Some s
    /\ MsgExecuteContract.p_contract (value e) = Some c.
Proof.
  destruct (constructor_is_composer h s c) as (this & h1 & Hnew & Hthis).
  rewrite Hnew. cbn [store_after]. intros Hf.
  exists this, h1, (envelope s c coins), (h1 ++ later).
  split; [reflexivity |].
  split; [| split; reflexivity].
  apply call_updateConfig_run; [now apply is_composer_extend | exact Hf].
Qed.

(** C3. Funds pass-through: when the funds are omitted the funds of the
    envelope are empty; when they are an array of coins, the funds of the
    envelope are those coins, unchanged and in the same order. *)
Theorem updateConfig_funds (h : heap) (this : loc) (s c : jsstring) :
  is_composer h this s c ->
  (exists e h',
      call_updateConfig this None h = Return e h'
      /\ MsgExecuteContract.p_funds (value e) = Some [])
  /\ (forall (l : loc) (coins : list Coin.t),
         coins_at h l = Some coins ->
         exists e h',
           call_updateConfig this (Some l) h = Return e h'
           /\ MsgExecuteContract.p_funds (value e) = Some coins).
Proof.
  intros Hthis. split.
  - exists (envelope s c None), h.
    split; [apply call_updateConfig_run; [assumption | constructor] | reflexivity].
  - intros l coins Hl. exists (envelope s c (Some coins)), h.
    split; [apply call_updateConfig_run; [assumption | now constructor] | reflexivity].
Qed.

(** C4. Determinism: two calls in a row on one composer with the same funds
    argument return equal envelopes; and so do two calls in any two stores,
    on composers made from the same sender and contract address, with funds
    of the same coins. *)
Theorem updateConfig_deterministic (h : heap) (this : loc) (s c : jsstring)
        (f : option loc) (coins : option (list Coin.t)) :
  is_composer h this s c -> funds_argument h f coins ->
  (exists e1 h1 e2 h2,
      call_updateConfig this f h = Return e1 h1
      /\ call_updateConfig this f h1 = Return e2 h2
      /\ e1 = e2)
  /\ (forall (h' : heap) (this' : loc) (f' : option loc),
         is_composer h' this' s c -> funds_argument h' f' coins ->
         exists e1 h1 e2 h2,
           call_updateConfig this f h = Return e1 h1
           /\ call_updateConfig this' f' h' = Return e2 h2
           /\ e1 = e2).
Proof.
  intros Hthis Hf. split.
  - exists (envelope s c coins), h, (envelope s c coins), h.
    repeat split; now apply call_updateConfig_run.
  - intros h' this' f' Hthis' Hf'.
    exists (envelope s c coins), h, (envelope s c coins), h'.
    repeat split; now apply call_updateConfig_run.
Qed.

(** C5. Round trip of the payload: decoded from UTF-8 and parsed as JSON,
    the [msg] of the envelope is an object with one key, the wrapper key,
    whose value is an object with the one key "update_config", whose value is
    the empty object.  The wrapper key is any string of 16-bit code units. *)
Theorem updateConfig_payload_decodes (h : heap) (this : loc) (s c : jsstring)
        (f : option loc) (coins : option (list Coin.t)) :
  forallb is_code_unit module_key = true ->
  is_composer h this s c -> funds_argument h f coins ->
  exists e h' payload,
    call_updateConfig this f h = Return e h'
    /\ MsgExecuteContract.p_msg (value e) = Some payload
    /\ decode_payload payload
       = Some (JObject [(module_key, JObject [(lit "update_config", JObject [])])]).
Proof.
  intros Hkey Hthis Hf.
  exists (envelope s c coins), h, (toUtf8 (JSON_stringify moduleMsg)).
  split; [now apply call_updateConfig_run | split; [reflexivity |]].
  now apply decode_payload_moduleMsg.
Qed.

(** C6, as amended. End-to-end example: a composer constructed with the
    sender "abstract1sender..." and the contract "abstract1contract...",
    called with no funds, returns the envelope with the fixed type
    identifier, that sender, that contract, the UTF-8 octets of the wrapped
    action as [msg], and the empty sequence as funds. *)
Theorem end_to_end_example (h : heap) :
  exists this h1 h2,
    constructor (lit "abstract1sender...") (lit "abstract1contract...") h
    = Return this h1
    /\ call_updateConfig this None h1
       = Return
           {| typeUrl := lit "/cosmwasm.wasm.v1.MsgExecuteContract";
              value :=
                {| MsgExecuteContract.p_sender := Some (lit "abstract1sender...");
                   MsgExecuteContract.p_contract := Some (lit "abstract1contract...");
                   MsgExecuteContract.p_msg :=
                     Some (toUtf8 (JSON_stringify
                                     (executeApp (JObject [(lit "update_config", JObject [])]))));
                   MsgExecuteContract.p_funds := Some [] |} |}
           h2.
Proof.
  destruct (constructor_is_composer h (lit "abstract1sender...") (lit "abstract1contract..."))
    as (this & h1 & Hnew & Hthis).
  exists this, h1, h1. split; [exact Hnew |].
  now rewrite (call_updateConfig_run h1 this _ _ None None Hthis (funds_omitted h1)).
Qed.

(** C7. No error of its own: the constructor returns for all strings, the
    empty ones included; a call on a composer returns an envelope for every
    funds argument; and whatever the store and the arguments, an exception
    that leaves [updateConfig] was thrown by a library it calls. *)
Theorem no_error_of_its_own :
  (forall (h : heap) (s c : jsstring),
      exists this h', constructor s c h = Return this h')
  /\ (forall (h : heap) (this : loc) (s c : jsstring) (f : option loc),
         is_composer h this s c -> well_typed_funds h f ->
         exists e h', call_updateConfig this f h = Return e h')
  /\ (forall (h h' : heap) (this : loc) (f : option loc) (e : exn),
         updateConfig this f h = Throw e h' -> e = TypeError Library).
Proof.
  split; [| split].
  - intros h s c. destruct (constructor_is_composer h s c) as (this & h' & H & _).
    now exists this, h'.
  - intros h this s c f Hthis [coins Hf].
    exists (envelope s c coins), h. now apply call_updateConfig_run.
  - intros h h' this f e. apply updateConfig_throw.
Qed.

Lemma call_each_run (h : heap) (this : loc) (s c : jsstring) (calls : list (option loc)) :
  is_composer h this s c -> Forall (well_typed_funds h) calls ->
  exists es,
    call_each this calls h = Return es h
    /\ Forall2 (fun f e => call_updateConfig this f h = Return e h) calls es.
Proof.
  intros Hthis Hcalls. induction Hcalls as [|f calls [coins Hf] _ IH].
  - exists []. split; [reflexivity | constructor].
  - destruct IH as (es & Hes & Hall).
    pose proof (call_updateConfig_run h this s c f coins Hthis Hf) as Hcall.
    exists (envelope s c coins :: es). split.
    + cbn [call_each]. unfold bind at 1. rewrite Hcall.
      unfold bind at 1. rewrite Hes. reflexivity.
    + now constructor.
Qed.

(** C8. No side effect: a call leaves the store as it found it, whatever
    its arguments; so after any number of calls on a composer its [sender]
    and [contractAddress] are those it was made from, the arrays of coins it
    was given hold the same coins, and each call has returned what it would
    have returned as the first. *)
Theorem updateConfig_no_side_effect (h : heap) (this : loc) (s c : jsstring)
        (calls : list (option loc)) :
  is_composer h this s c -> Forall (well_typed_funds h) calls ->
  (forall f, store_after (call_updateConfig this f h) = h)
  /\ exists es h',
       call_each this calls h = Return es h'
       /\ is_composer h' this s c
       /\ (forall l, coins_at h' l = coins_at h l)
       /\ Forall2 (fun f e => call_updateConfig this f h = Return e h) calls es.
Proof.
  intros Hthis Hcalls. split.
  - intros f. apply call_updateConfig_store.
  - destruct (call_each_run h this s c calls Hthis Hcalls) as (es & Hes & Hall).
    exists es, h. auto.
Qed.

(** C9. The constructor stores its two arguments as they are: the new
    object has [sender] equal to [s] and [contractAddress] equal to [c], and
    the objects of the store before it are untouched. *)
Theorem constructor_stores_arguments (h : heap) (s c : jsstring) :
  exists this h' i,
    constructor s c h = Return this h'
    /\ nth_error h' this = Some (Instance i)
    /\ sender i = Some s
    /\ contractAddress i = Some c
    /\ nth_error h this = None
    /\ (forall l, (l < List.length h)%nat -> nth_error h' l = nth_error h l).
Proof.
  eexists _, _, _. split; [apply constructor_run |].
  split; [apply nth_error_snoc |].
  repeat split.
  - now apply nth_error_None.
  - intros l Hl. now apply nth_error_extend.
Qed.

(** C10. The payload is a constant: the [msg] of the envelope does not
    depend on the sender, on the contract address or on the funds; any two
    calls, on any two composers, carry the same octets, those of the wrapped
    action [update_config]. *)
Theorem updateConfig_payload_constant
        (h1 : heap) (this1 : loc) (s1 c1 : jsstring) (f1 : option loc)
        (h2 : heap) (this2 : loc) (s2 c2 : jsstring) (f2 : option loc) :
  is_composer h1 this1 s1 c1 -> well_typed_funds h1 f1 ->
  is_composer h2 this2 s2 c2 -> well_typed_funds h2 f2 ->
  exists e1 h1' e2 h2',
    call_updateConfig this1 f1 h1 = Return e1 h1'
    /\ call_updateConfig this2 f2 h2 = Return e2 h2'
    /\ MsgExecuteContract.p_msg (value e1) = MsgExecuteContract.p_msg (value e2)
    /\ MsgExecuteContract.p_msg (value e1)
       = Some (toUtf8 (JSON_stringify
                         (executeApp (JObject [(lit "update_config", JObject [])])))).
Proof.
  intros Hthis1 [coins1 Hf1] Hthis2 [coins2 Hf2].
  exists (envelope s1 c1 coins1), h1, (envelope s2 c2 coins2), h2.
  repeat split; now apply call_updateConfig_run.
Qed.

(** ** Further properties of the composer *)

Lemma nth_error_heap_set_eq (h : heap) (l : loc) (o o' : object) :
  nth_error h l = Some o -> nth_error (heap_set h l o') l = Some o'.
Proof.
  revert l. induction h as [|x h IH]; intros [|l]; simpl; try discriminate.
  - reflexivity.
  - apply IH.
Qed.

Lemma nth_error_heap_set_ne (h : heap) (l l' : loc) (o' : object) :
  l' <> l -> nth_error (heap_set h l o') l' = nth_error h l'.
Proof.
  revert l l'. induction h as [|x h IH]; intros [|l] [|l'] Hne; simpl;
    try reflexivity; try contradiction.
  apply IH. congruence.
Qed.

(** An assignment to a field of a composer changes that composer and
    nothing else; the arrays of coins are what they were. *)
Lemma funds_argument_heap_set (h : heap) (this : loc) (s c : jsstring)
      (i : TemplateMessageComposer) (f : option loc) (coins : option (list Coin.t)) :
  is_composer h this s c -> funds_argument h f coins ->
  funds_argument (heap_set h this (Instance i)) f coins.
Proof.
  unfold is_composer. intros Hthis [|l cs Hl]; constructor.
  unfold coins_at in *. rewrite nth_error_heap_set_ne; [exact Hl |].
  intros ->. rewrite Hthis in Hl. discriminate.
Qed.

Lemma assign_sender_run (h : heap) (this : loc) (s c v : jsstring) :
  is_composer h this s c ->
  exists h1,
    assign_sender this v h = Return tt h1
    /\ is_composer h1 this v c
    /\ (forall l, l <> this -> nth_error h1 l = nth_error h l)
    /\ (forall f coins, funds_argument h f coins -> funds_argument h1 f coins).
Proof.
  intros Hthis. unfold assign_sender, set_property.
  pose proof Hthis as Hthis'. unfold is_composer in Hthis'. rewrite Hthis'.
  eexists. split; [reflexivity |]. repeat split.
  - unfold is_composer. now apply nth_error_heap_set_eq with (o := Instance (make_instance (Some s) (Some c) (Some (Bound (Arrow this) this)))).
  - intros l Hl. now apply nth_error_heap_set_ne.
  - intros f coins Hf. now apply funds_argument_heap_set with (s := s) (c := c).
Qed.

Lemma assign_contractAddress_run (h : heap) (this : loc) (s c v : jsstring) :
  is_composer h this s c ->
  exists h1,
    assign_contractAddress this v h = Return tt h1
    /\ is_composer h1 this s v
    /\ (forall l, l <> this -> nth_error h1 l = nth_error h l)
    /\ (forall f coins, funds_argument h f coins -> funds_argument h1 f coins).
Proof.
  intros Hthis. unfold assign_contractAddress, set_property.
  pose proof Hthis as Hthis'. unfold is_composer in Hthis'. rewrite Hthis'.
  eexists. split; [reflexivity |]. repeat split.
  - unfold is_composer. now apply nth_error_heap_set_eq with (o := Instance (make_instance (Some s) (Some c) (Some (Bound (Arrow this) this)))).
  - intros l Hl. now apply nth_error_heap_set_ne.
  - intros f coins Hf. now apply funds_argument_heap_set with (s := s) (c := c).
Qed.

Lemma call_rebind (g : closure) (thisArgs : list loc) (f : option loc) (h : heap) :
  call (rebind g thisArgs) f h = call g f h.
Proof.
  unfold rebind. revert g.
  induction thisArgs as [|a thisArgs IH]; intros g; cbn [fold_left]; [reflexivity |].
  now rewrite IH.
Qed.

(** X1. The function a composer holds in [updateConfig] stays with its
    instance: read off the composer and called on its own, or rebound with
    [bind] to any other objects, it does what [updateConfig] does on the
    instance it was created on. *)
Theorem updateConfig_bound_to_its_instance (h : heap) (s c : jsstring) :
  exists this h1 g,
    constructor s c h = Return this h1
    /\ get_property updateConfig_property this h1 = Return (Some g) h1
    /\ forall (thisArgs : list loc) (f : option loc) (h2 : heap),
         call (rebind g thisArgs) f h2 = updateConfig this f h2.
Proof.
  exists (List.length h). eexists. exists (Bound (Arrow (List.length h)) (List.length h)).
  split; [apply constructor_run |]. split.
  - unfold get_property. now rewrite nth_error_snoc.
  - intros thisArgs f h2. now rewrite call_rebind.
Qed.

(** X2. The envelope follows the fields as they are when the call is made:
    after [composer.sender = v] the envelope carries [v] as sender and the
    contract address as before, after [composer.contractAddress = v] it
    carries [v] as contract and the sender as before; the assignment changes
    no other object. *)
Theorem updateConfig_reads_current_fields (h : heap) (this : loc) (s c v : jsstring)
        (f : option loc) (coins : option (list Coin.t)) :
  is_composer h this s c -> funds_argument h f coins ->
  (exists h1 e,
      assign_sender this v h = Return tt h1
      /\ call_updateConfig this f h1 = Return e h1
      /\ MsgExecuteContract.p_sender (value e) = Some v
      /\ MsgExecuteContract.p_contract (value e) = Some c
      /\ forall l, l <> this -> nth_error h1 l = nth_error h l)
  /\ (exists h1 e,
         assign_contractAddress this v h = Return tt h1
         /\ call_updateConfig this f h1 = Return e h1
         /\ MsgExecuteContract.p_sender (value e) = Some s
         /\ MsgExecuteContract.p_contract (value e) = Some v
         /\ forall l, l <> this -> nth_error h1 l = nth_error h l).
Proof.
  intros Hthis Hf. split.
  - destruct (assign_sender_run h this s c v Hthis) as (h1 & Hset & Hthis1 & Hframe & Hfunds).
    exists h1, (envelope v c coins).
    split; [exact Hset |].
    split; [apply call_updateConfig_run; auto |].
    repeat split; auto.
  - destruct (assign_contractAddress_run h this s c v Hthis)
      as (h1 & Hset & Hthis1 & Hframe & Hfunds).
    exists h1, (envelope s v coins).
    split; [exact Hset |].
    split; [apply call_updateConfig_run; auto |].
    repeat split; auto.
Qed.

(** X3. Composers do not share state: constructing another composer makes
    a new object and leaves a composer already there to return the envelope
    it returned before, while the new one returns an envelope with its own
    sender and contract address. *)
Theorem constructor_leaves_other_composers (h : heap) (this : loc) (s c s' c' : jsstring)
        (f : option loc) (coins : option (list Coin.t)) :
  is_composer h this s c -> funds_argument h f coins ->
  exists this' h' e e',
    constructor s' c' h = Return this' h'
    /\ this' <> this
    /\ call_updateConfig this f h = Return e h
    /\ call_updateConfig this f h' = Return e h'
    /\ call_updateConfig this' f h' = Return e' h'
    /\ MsgExecuteContract.p_sender (value e) = Some s
    /\ MsgExecuteContract.p_contract (value e) = Some c
    /\ MsgExecuteContract.p_sender (value e') = Some s'
    /\ MsgExecuteContract.p_contract (value e') = Some c'.
Proof.
  intros Hthis Hf.
  exists (List.length h). eexists. exists (envelope s c coins), (envelope s' c' coins).
  split; [apply constructor_run |].
  split.
  { intros Heq. unfold is_composer in Hthis.
    assert (Hnone : nth_error h (List.length h) = None) by now apply nth_error_None.
    rewrite Heq in Hnone. rewrite Hnone in Hthis. discriminate. }
  split; [now apply call_updateConfig_run |].
  split; [apply call_updateConfig_run;
          [now apply is_composer_extend | now apply funds_argument_extend] |].
  split; [| repeat split].
  apply call_updateConfig_run; [| now apply funds_argument_extend].
  unfold is_composer. now rewrite nth_error_snoc.
Qed.


(** X5. [updateConfig] reads its receiver and the array of its funds, and
    nothing else: in two stores that hold the same objects at these two
    places it returns the same envelope, or throws the same exception. *)
Theorem updateConfig_reads_receiver_and_funds_only (h h' : heap) (this : loc)
        (f : option loc) :
  nth_error h this = nth_error h' this ->
  (forall l, f = Some l -> nth_error h l = nth_error h' l) ->
  result_of (updateConfig this f h) = result_of (updateConfig this f h').
Proof.
  intros Hthis Hf.
  unfold updateConfig, bind, get_property, MsgExecuteContract.fromPartial, bind.
  rewrite <- Hthis.
  destruct f as [l|]; cbn; [| reflexivity].
  unfold MsgExecuteContract.read_array. rewrite <- (Hf l eq_refl).
  destruct (nth_error h l) as [[i|cs]|]; reflexivity.
Qed.

End Composer.

(** ** The properties at work

    The store [example_store] holds an array of one coin, 100 uusd, at
    location 0 and a composer at location 1, whose sender and contract
    address end in a non-ASCII character; the wrapper key is "module". *)

Lemma example_is_composer :
  is_composer example_store 1%nat example_sender example_contract.
Proof. reflexivity. Defined.

Lemma example_funds :
  funds_argument example_store (Some 0%nat) (Some example_coins).
Proof. constructor. reflexivity. Defined.

Lemma other_is_composer : is_composer other_store 0%nat [] [].
Proof. reflexivity. Defined.

(** Both stores are what the constructor makes. *)
Example example_store_constructed :
  constructor example_sender example_contract [CoinArray example_coins]
  = Return 1%nat example_store.
Proof. reflexivity. Qed.

Example other_store_constructed :
  constructor [] [] [] = Return 0%nat other_store.
Proof. reflexivity. Qed.

(** The envelope of the example, and its payload as text:
    [{"module":{"update_config":{}}}]. *)
Example example_call :
  call_updateConfig example_key 1%nat (Some 0%nat) example_store
  = Return
      {| typeUrl := lit "/cosmwasm.wasm.v1.MsgExecuteContract";
         value :=
           {| MsgExecuteContract.p_sender := Some example_sender;
              MsgExecuteContract.p_contract := Some example_contract;
              MsgExecuteContract.p_msg :=
                Some (0x7B :: 0x22 :: lit "module"
                        ++ 0x22 :: 0x3A :: 0x7B :: 0x22 :: lit "update_config"
                        ++ [0x22; 0x3A; 0x7B; 0x7D; 0x7D; 0x7D]);
              MsgExecuteContract.p_funds := Some example_coins |} |}
      example_store.
Proof. reflexivity. Qed.

(** Funds that are not an array: the library throws, and the store is as it
    was. *)
Example ill_typed_funds :
  updateConfig example_key 0%nat (Some 0%nat) other_store
  = Throw (TypeError Library) other_store.
Proof. reflexivity. Qed.

(** A wrapper key with a quote, a backslash, a line feed, a control
    character, non-ASCII characters, a surrogate pair and a lone surrogate
    comes back from the payload as it was. *)
Example awkward_key_decodes :
  let key := [0x22; 0x5C; 0x0A; 0x1F; 0xE9; 0x20AC; 0xD83D; 0xDE00; 0xDC00] in
  decode_payload (toUtf8 (JSON_stringify (moduleMsg key))) = Some (moduleMsg key).
Proof. vm_compute. reflexivity. Qed.

Lemma updateConfig_typeUrl_witness :
  is_composer example_store 1%nat example_sender example_contract
  /\ funds_argument example_store (Some 0%nat) (Some example_coins)
  /\ exists e h',
       call_updateConfig example_key 1%nat (Some 0%nat) example_store = Return e h'
       /\ typeUrl e = lit "/cosmwasm.wasm.v1.MsgExecuteContract".
Proof.
  split; [exact example_is_composer | split; [exact example_funds |]].
  exact (updateConfig_typeUrl example_key example_store 1%nat example_sender
           example_contract (Some 0%nat) (Some example_coins)
           example_is_composer example_funds).
Defined.

Lemma updateConfig_identity_witness :
  funds_argument
    (store_after (constructor example_sender example_contract [CoinArray example_coins])
       ++ [CoinArray example_coins])
    (Some 2%nat) (Some example_coins)
  /\ exists this h1 e h2,
       constructor example_sender example_contract [CoinArray example_coins]
       = Return this h1
       /\ call_updateConfig example_key this (Some 2%nat) (h1 ++ [CoinArray example_coins])
          = Return e h2
       /\ MsgExecuteContract.p_sender (value e) = Some (lit "cosmos1" ++ [0xE4])
       /\ MsgExecuteContract.p_contract (value e) = Some (lit "cosmos1" ++ [0x20AC]).
Proof.
  assert (Hf : funds_argument
                 (store_after (constructor example_sender example_contract
                                 [CoinArray example_coins])
                    ++ [CoinArray example_coins])
                 (Some 2%nat) (Some example_coins))
    by (constructor; reflexivity).
  split; [exact Hf |].
  exact (updateConfig_identity example_key [CoinArray example_coins] example_sender
           example_contract [CoinArray example_coins] (Some 2%nat) (Some example_coins) Hf).
Defined.

Lemma updateConfig_funds_witness :
  is_composer example_store 1%nat example_sender example_contract
  /\ coins_at example_store 0%nat = Some [Coin.make (lit "uusd") (lit "100")]
  /\ (exists e h',
         call_updateConfig example_key 1%nat None example_store = Return e h'
         /\ MsgExecuteContract.p_funds (value e) = Some [])
  /\ (exists e h',
         call_updateConfig example_key 1%nat (Some 0%nat) example_store = Return e h'
         /\ MsgExecuteContract.p_funds (value e)
            = Some [Coin.make (lit "uusd") (lit "100")]).
Proof.
  pose proof (updateConfig_funds example_key example_store 1%nat example_sender
                example_contract example_is_composer) as [Homitted Hgiven].
  split; [exact example_is_composer | split; [reflexivity | split]].
  - exact Homitted.
  - exact (Hgiven 0%nat example_coins eq_refl).
Defined.

Lemma updateConfig_deterministic_witness :
  is_composer example_store 1%nat example_sender example_contract
  /\ funds_argument example_store (Some 0%nat) (Some example_coins)
  /\ is_composer later_store 1%nat example_sender example_contract
  /\ funds_argument later_store (Some 2%nat) (Some example_coins)
  /\ (exists e1 h1 e2 h2,
         call_updateConfig example_key 1%nat (Some 0%nat) example_store = Return e1 h1
         /\ call_updateConfig example_key 1%nat (Some 0%nat) h1 = Return e2 h2
         /\ e1 = e2)
  /\ (exists e1 h1 e2 h2,
         call_updateConfig example_key 1%nat (Some 0%nat) example_store = Return e1 h1
         /\ call_updateConfig example_key 1%nat (Some 2%nat) later_store = Return e2 h2
         /\ e1 = e2).
Proof.
  assert (Hthis : is_composer later_store 1%nat example_sender example_contract)
    by reflexivity.
  assert (Hf : funds_argument later_store (Some 2%nat) (Some example_coins))
    by (constructor; reflexivity).
  pose proof (updateConfig_deterministic example_key example_store 1%nat example_sender
                example_contract (Some 0%nat) (Some example_coins)
                example_is_composer example_funds) as [Hrow Hany].
  split; [exact example_is_composer | split; [exact example_funds |]].
  split; [exact Hthis | split; [exact Hf | split; [exact Hrow |]]].
  exact (Hany later_store 1%nat (Some 2%nat) Hthis Hf).
Defined.

Lemma updateConfig_payload_decodes_witness :
  forallb is_code_unit example_key = true
  /\ is_composer example_store 1%nat example_sender example_contract
  /\ funds_argument example_store (Some 0%nat) (Some example_coins)
  /\ exists e h' payload,
       call_updateConfig example_key 1%nat (Some 0%nat) example_store = Return e h'
       /\ MsgExecuteContract.p_msg (value e) = Some payload
       /\ decode_payload payload
          = Some (JObject [(lit "module", JObject [(lit "update_config", JObject [])])]).
Proof.
  split; [reflexivity | split; [exact example_is_composer | split; [exact example_funds |]]].
  exact (updateConfig_payload_decodes example_key example_store 1%nat example_sender
           example_contract (Some 0%nat) (Some example_coins)
           eq_refl example_is_composer example_funds).
Defined.

Lemma no_error_of_its_own_witness :
  (exists this h', constructor [] [] [] = Return this h')
  /\ is_composer other_store 0%nat [] []
  /\ well_typed_funds other_store None
  /\ (exists e h', call_updateConfig example_key 0%nat None other_store = Return e h')
  /\ updateConfig example_key 0%nat (Some 0%nat) other_store
     = Throw (TypeError Library) other_store
  /\ TypeError Library = TypeError Library.
Proof.
  pose proof (no_error_of_its_own example_key) as (Hnew & Hcall & Hthrow).
  assert (Hf : well_typed_funds other_store None) by (exists None; constructor).
  split; [exact (Hnew [] [] []) | split; [exact other_is_composer | split; [exact Hf |]]].
  split; [exact (Hcall other_store 0%nat [] [] None other_is_composer Hf) |].
  split; [reflexivity |].
  exact (Hthrow other_store other_store 0%nat (Some 0%nat) (TypeError Library) eq_refl).
Defined.

Lemma updateConfig_no_side_effect_witness :
  is_composer example_store 1%nat example_sender example_contract
  /\ Forall (well_typed_funds example_store) [Some 0%nat; None; Some 0%nat]
  /\ (forall f, store_after (call_updateConfig example_key 1%nat f example_store)
                = example_store)
  /\ exists es h',
       call_each example_key 1%nat [Some 0%nat; None; Some 0%nat] example_store
       = Return es h'
       /\ is_composer h' 1%nat example_sender example_contract
       /\ (forall l, coins_at h' l = coins_at example_store l)
       /\ Forall2 (fun f e => call_updateConfig example_key 1%nat f example_store
                              = Return e example_store)
                  [Some 0%nat; None; Some 0%nat] es.
Proof.
  assert (H0 : well_typed_funds example_store (Some 0%nat))
    by (exists (Some example_coins); exact example_funds).
  assert (H1 : well_typed_funds example_store None) by (exists None; constructor).
  assert (Hcalls : Forall (well_typed_funds example_store) [Some 0%nat; None; Some 0%nat])
    by (repeat constructor; assumption).
  split; [exact example_is_composer | split; [exact Hcalls |]].
  exact (updateConfig_no_side_effect example_key example_store 1%nat example_sender
           example_contract [Some 0%nat; None; Some 0%nat] example_is_composer Hcalls).
Defined.

Lemma constructor_stores_arguments_witness :
  exists this h' i,
    constructor example_sender example_contract [CoinArray example_coins]
    = Return this h'
    /\ nth_error h' this = Some (Instance i)
    /\ sender i = Some example_sender
    /\ contractAddress i = Some example_contract
    /\ nth_error [CoinArray example_coins] this = None
    /\ nth_error h' 0%nat = nth_error [CoinArray example_coins] 0%nat.
Proof.
  destruct (constructor_stores_arguments [CoinArray example_coins]
              example_sender example_contract)
    as (this & h' & i & Hnew & Hthis & Hs & Hc & Hfresh & Hframe).
  exists this, h', i.
  repeat (split; [assumption |]).
  apply Hframe. apply le_n.
Defined.

Lemma updateConfig_payload_constant_witness :
  is_composer example_store 1%nat example_sender example_contract
  /\ well_typed_funds example_store (Some 0%nat)
  /\ is_composer other_store 0%nat [] []
  /\ well_typed_funds other_store None
  /\ exists e1 h1' e2 h2',
       call_updateConfig example_key 1%nat (Some 0%nat) example_store = Return e1 h1'
       /\ call_updateConfig example_key 0%nat None other_store = Return e2 h2'
       /\ MsgExecuteContract.p_msg (value e1) = MsgExecuteContract.p_msg (value e2)
       /\ MsgExecuteContract.p_msg (value e1)
          = Some (toUtf8 (JSON_stringify
                            (executeApp example_key
                               (JObject [(lit "update_config", JObject [])])))).
Proof.
  assert (H0 : well_typed_funds example_store (Some 0%nat))
    by (exists (Some example_coins); exact example_funds).
  assert (H1 : well_typed_funds other_store None) by (exists None; constructor).
  split; [exact example_is_composer | split; [exact H0 |]].
  split; [exact other_is_composer | split; [exact H1 |]].
  exact (updateConfig_payload_constant example_key
           example_store 1%nat example_sender example_contract (Some 0%nat)
           other_store 0%nat [] [] None
           example_is_composer H0 other_is_composer H1).
Defined.

(** C6, as the specification states it, fails: the funds of the envelope of
    the end-to-end example are not [undefined]. *)
Lemma end_to_end_funds_not_undefined :
  ~ exists this h1 e h2,
      constructor (lit "abstract1sender...") (lit "abstract1contract...") [] = Return this h1
      /\ call_updateConfig example_key this None h1 = Return e h2
      /\ typeUrl e = lit "/cosmwasm.wasm.v1.MsgExecuteContract"
      /\ MsgExecuteContract.p_sender (value e) = Some (lit "abstract1sender...")
      /\ MsgExecuteContract.p_contract (value e) = Some (lit "abstract1contract...")
      /\ MsgExecuteContract.p_msg (value e)
         = Some (toUtf8 (JSON_stringify
                           (executeApp example_key
                              (JObject [(lit "update_config", JObject [])]))))
      /\ MsgExecuteContract.p_funds (value e) = None.
Proof.
  intros (this & h1 & e & h2 & Hnew & Hcall & _ & _ & _ & _ & Hfunds).
  rewrite constructor_run in Hnew. injection Hnew as <- <-.
  vm_compute in Hcall. injection Hcall as <- _.
  discriminate Hfunds.
Qed.

(** ** The recipes of the task runner *)

Section ShellFacts.

Variable world : Type.
Variable exec : string -> world -> world * bool.

Lemma errexit_cons (command : string) (rest : list string) (w : world) :
  Justfile.errexit world exec (command :: rest) w
  = if snd (exec command w)
    then ((command, true) :: fst (Justfile.errexit world exec rest (fst (exec command w))),
          snd (Justfile.errexit world exec rest (fst (exec command w))))
    else ([(command, false)], fst (exec command w)).
Proof.
  cbn [Justfile.errexit]. destruct (exec command w) as [w' [|]]; cbn [fst snd].
  - now destruct (Justfile.errexit world exec rest w').
  - reflexivity.
Qed.

(** A script under [set -e] runs to its end, every command succeeding, or
    stops at the first command that fails: the commands before it have
    succeeded, those after it are not run. *)
Lemma errexit_cases (script : list string) (w : world) :
  fst (Justfile.errexit world exec script w) = map (fun c => (c, true)) script
  \/ exists done failing rest,
      script = done ++ failing :: rest
      /\ fst (Justfile.errexit world exec done w) = map (fun c => (c, true)) done
      /\ snd (exec failing (snd (Justfile.errexit world exec done w))) = false
      /\ Justfile.errexit world exec script w
         = (map (fun c => (c, true)) done ++ [(failing, false)],
            fst (exec failing (snd (Justfile.errexit world exec done w)))).
Proof.
  revert w. induction script as [|command script IH]; intros w.
  - left. reflexivity.
  - rewrite errexit_cons. destruct (snd (exec command w)) eqn:Hok.
    + destruct (IH (fst (exec command w)))
        as [Hall | (done & failing & rest & -> & Hdone & Hfail & Hrun)].
      * left. cbn [fst map]. now rewrite Hall.
      * right. exists (command :: done), failing, rest.
        rewrite (errexit_cons command done), Hok. cbn [fst snd].
        split; [reflexivity |].
        split; [cbn [map]; now rewrite Hdone |].
        split; [exact Hfail |].
        rewrite Hrun. reflexivity.
    + right. exists [], command, script. cbn [Justfile.errexit app map fst snd].
      repeat split. exact Hok.
Qed.


(** X7. [schema] generates the schemas of the app template, then runs the
    script of the modules, then that of the framework; a step is run only
    when the steps before it have succeeded. *)
Theorem schema_stops_at_first_failure (w : world) :
  let script :=
    ["(cd app-template; cargo run --example schema --features schema)";
     "sh scripts/modules-schema.sh";
     "sh scripts/framework-schema.sh"]%string in
  fst (Justfile.schema world exec w) = map (fun c => (c, true)) script
  \/ exists done failing rest,
      script = done ++ failing :: rest
      /\ fst (Justfile.errexit world exec done w) = map (fun c => (c, true)) done
      /\ snd (exec failing (snd (Justfile.errexit world exec done w))) = false
      /\ Justfile.schema world exec w
         = (map (fun c => (c, true)) done ++ [(failing, false)],
            fst (exec failing (snd (Justfile.errexit world exec done w)))).
Proof.
  intros script. apply errexit_cases.
Qed.

End ShellFacts.

(** [nightly-build] on a machine where the second command fails: [cargo
    build --all-features] runs in ./framework and in ./modules, and not in
    ./app-template. *)
Example nightly_build_second_fails :
  Justfile.nightly_build nat (Justfile.counting 1) 0%nat
  = ([("(cd ./framework; cargo build --all-features)"%string, true);
      ("(cd ./modules; cargo build --all-features)"%string, false)], 2%nat).
Proof. reflexivity. Qed.

Example schema_all_succeed :
  fst (Justfile.schema nat (Justfile.counting 3) 0%nat)
  = [("(cd app-template; cargo run --example schema --features schema)"%string, true);
     ("sh scripts/modules-schema.sh"%string, true);
     ("sh scripts/framework-schema.sh"%string, true)].
Proof. reflexivity. Qed.

(** The further properties of the composer, at work. *)

Lemma updateConfig_reads_current_fields_witness :
  is_composer example_store 1%nat example_sender example_contract
  /\ funds_argument example_store (Some 0%nat) (Some example_coins)
  /\ (exists h1 e,
         assign_sender 1%nat (lit "cosmos1new") example_store = Return tt h1
         /\ call_updateConfig example_key 1%nat (Some 0%nat) h1 = Return e h1
         /\ MsgExecuteContract.p_sender (value e) = Some (lit "cosmos1new")
         /\ MsgExecuteContract.p_contract (value e) = Some example_contract
         /\ forall l, l <> 1%nat -> nth_error h1 l = nth_error example_store l)
  /\ (exists h1 e,
         assign_contractAddress 1%nat (lit "cosmos1new") example_store = Return tt h1
         /\ call_updateConfig example_key 1%nat (Some 0%nat) h1 = Return e h1
         /\ MsgExecuteContract.p_sender (value e) = Some example_sender
         /\ MsgExecuteContract.p_contract (value e) = Some (lit "cosmos1new")
         /\ forall l, l <> 1%nat -> nth_error h1 l = nth_error example_store l).
Proof.
  split; [exact example_is_composer | split; [exact example_funds |]].
  exact (updateConfig_reads_current_fields example_key example_store 1%nat
           example_sender example_contract (lit "cosmos1new")
           (Some 0%nat) (Some example_coins) example_is_composer example_funds).
Defined.

Lemma constructor_leaves_other_composers_witness :
  is_composer example_store 1%nat example_sender example_contract
  /\ funds_argument example_store (Some 0%nat) (Some example_coins)
  /\ exists this' h' e e',
       constructor (lit "cosmos1other") (lit "cosmos1contract") example_store
       = Return this' h'
       /\ this' <> 1%nat
       /\ call_updateConfig example_key 1%nat (Some 0%nat) example_store
          = Return e example_store
       /\ call_updateConfig example_key 1%nat (Some 0%nat) h' = Return e h'
       /\ call_updateConfig example_key this' (Some 0%nat) h' = Return e' h'
       /\ MsgExecuteContract.p_sender (value e) = Some example_sender
       /\ MsgExecuteContract.p_contract (value e) = Some example_contract
       /\ MsgExecuteContract.p_sender (value e') = Some (lit "cosmos1other")
       /\ MsgExecuteContract.p_contract (value e') = Some (lit "cosmos1contract").
Proof.
  split; [exact example_is_composer | split; [exact example_funds |]].
  exact (constructor_leaves_other_composers example_key example_store 1%nat
           example_sender example_contract (lit "cosmos1other") (lit "cosmos1contract")
           (Some 0%nat) (Some example_coins) example_is_composer example_funds).
Defined.


Lemma updateConfig_reads_receiver_and_funds_only_witness :
  nth_error example_store 1%nat = nth_error later_store 1%nat
  /\ (forall l, Some 0%nat = Some l -> nth_error example_store l = nth_error later_store l)
  /\ result_of (updateConfig example_key 1%nat (Some 0%nat) example_store)
     = result_of (updateConfig example_key 1%nat (Some 0%nat) later_store).
Proof.
  assert (Hf : forall l, Some 0%nat = Some l
                         -> nth_error example_store l = nth_error later_store l).
  { intros l Hl. injection Hl as <-. reflexivity. }
  split; [reflexivity | split; [exact Hf |]].
  exact (updateConfig_reads_receiver_and_funds_only example_key example_store
           later_store 1%nat (Some 0%nat) eq_refl Hf).
Defined.
